(** * A cache-aside proxy in front of a user repository

    Shallow embedding of [main.go]: the [User] record, the in-memory
    [UserCache] (a Go [map[string]*User] behind a [sync.RWMutex]), the
    [UserRepository] interface with its SQL implementation [UserRep], and the
    caching decorator [CachedUserRep].

    Go pointers are modelled by an explicit heap, so that the pointers the
    cache stores keep their identity; the order in which Go ranges over a map
    is left to an explicit list of runtime choices. *)

From Stdlib Require Import ZArith.
From stdpp Require Import gmap strings list fin_maps.

(** ** Data model *)

(** [type User struct { Email, Password, Name string; Age int }] *)
Record User := mkUser {
  Email : string;
  Password : string;
  Name : string;
  Age : Z;
}.

#[global] Instance User_eq_dec : EqDecision User.
Proof. solve_decision. Defined.

(** The zero value of [User], which [var user User] declares. *)
Definition zero_User : User := mkUser "" "" "" 0.

(** Go [error] values.  [sql.ErrNoRows] is the one sentinel the code
    compares against; every other non-nil error is opaque.  The nil error
    is [None]. *)
Inductive error :=
  | ErrNoRows
  | ErrOther (msg : string).

#[global] Instance error_eq_dec : EqDecision error.
Proof. solve_decision. Defined.

Abbreviation err := (option error).

(** A slice [[]User]: the nil slice is [None], [[]User{...}] is [Some]. *)
Abbreviation slice := (option (list User)).

Definition slice_elems (s : slice) : list User := default [] s.

(** ** Pointers and the heap *)

Definition loc := nat.

(** A [*User]: nil or the address of a heap cell. *)
Inductive ptr :=
  | Nil
  | Addr (l : loc).

#[global] Instance ptr_eq_dec : EqDecision ptr.
Proof. solve_decision. Defined.

(** The heap holds the [User] values whose address has been taken.  Cells
    are never freed (Go is garbage collected), so a list indexed by
    address is enough. *)
Abbreviation Heap := (list User).

(** [&user] for a variable holding [u]: a new cell. *)
Definition alloc (h : Heap) (u : User) : ptr * Heap :=
  (Addr (length h), h ++ [u]).

(** [*p]; [None] is the nil-dereference panic. *)
Definition deref (h : Heap) (p : ptr) : option User :=
  match p with
  | Nil => None
  | Addr l => h !! l
  end.

(** A pointer into the heap: not nil, and within the allocated cells. *)
Definition valid (h : Heap) (p : ptr) : Prop :=
  match p with
  | Nil => False
  | Addr l => l < length h
  end.

(** ** Ranging over a map

    Go visits the entries of a map in an unspecified order that may differ
    from one loop to the next.  [range_order ρ l] reorders [l] according to
    the runtime's choices [ρ]: each element is put at the position the next
    choice names. *)

Definition insert_at {A} (k : nat) (x : A) (l : list A) : list A :=
  take k l ++ x :: drop k l.

Fixpoint range_order {A} (ρ : list nat) (l : list A) : list A :=
  match l with
  | [] => []
  | x :: l' => insert_at (hd 0 ρ) x (range_order (tl ρ) l')
  end.

(** ** The cache layer *)

(** [type UserCache struct { users map[string]*User; mutex sync.RWMutex }].
    The sequential model keeps the map; the lock is modelled separately in
    [Module Locking]. *)
Abbreviation UserCache := (gmap string ptr).

(** [NewUserCache] *)
Definition NewUserCache : UserCache := ∅.

(** [func (c *UserCache) Get(email string) (ptr User, bool)] *)
Definition UserCache_Get (email : string) (c : UserCache) : ptr * bool :=
  match c !! email with
  | Some user => (user, true)
  | None => (Nil, false)
  end.

(** [func (c *UserCache) Set(email string, user *User)] *)
Definition UserCache_Set (email : string) (user : ptr) (c : UserCache) : UserCache :=
  <[email := user]> c.

(** [func (c *UserCache) List() []User]: the values of the map, each
    dereferenced, in the order the range loop visits them.  [None] is the
    panic of dereferencing a nil entry. *)
Definition UserCache_List (ρ : list nat) (c : UserCache) (h : Heap) : option (list User) :=
  mapM (λ kv, deref h kv.2) (range_order ρ (map_to_list c)).

(** ** The repository layer *)

(** The [database/sql] handle, as far as [UserRep] uses it. *)
Class SqlDB (D : Type) := {
  (** [db.ExecContext(ctx, `INSERT INTO users ...`, ...)]; the
      [sql.Result] is discarded by the caller. *)
  db_ExecInsert : User → D → err * D;
  (** [db.QueryContext(ctx, `SELECT ... FROM users`)]: the query error,
      and for each row [rows.Next()] yields, what [rows.Scan] leaves in
      the [user] variable together with its error. *)
  db_QueryAll : D → list (User * err) * err * D;
  (** [db.QueryRow(`SELECT ... WHERE email = $1`, email)] followed by
      [row.Scan] into a zero-valued [user]. *)
  db_QueryRowScan : string → D → User * err * D;
}.

(** [type UserRepository interface].  [St] is the state behind the
    implementation.  [GetByEmail] returns a [*User]: nil ([None]) or a
    record the callee allocated for this call ([Some]), as [UserRep] does
    with [&user].  The [ctx] arguments are passed through to the store
    untouched and are part of its state here. *)
Class UserRepository (St : Type) := {
  rep_Create : User → St → err * St;
  rep_List : St → slice * err * St;
  rep_GetByEmail : string → St → option User * err * St;
}.

(** The calls made on the wrapped repository, in order. *)
Inductive RepCall :=
  | CallCreate (user : User)
  | CallList
  | CallGetByEmail (email : string).

Section UserRep.
Context {D : Type} `{SqlDB D}.

(** [func (u *UserRep) Create(ctx, user User) error] *)
Definition UserRep_Create (user : User) (db : D) : err * D :=
  db_ExecInsert user db.

(** The [for rows.Next()] loop of [UserRep.List]. *)
Fixpoint scan_rows (rows : list (User * err)) (users : list User) : slice * err :=
  match rows with
  | [] => (Some users, None)
  | (user, None) :: rows' => scan_rows rows' (users ++ [user])
  | (_, Some e) :: _ => (None, Some e)
  end.

(** [func (u *UserRep) List(ctx) ([]User, error)] *)
Definition UserRep_List (db : D) : slice * err * D :=
  let '(rows, e, db') := db_QueryAll db in
  match e with
  | Some _ => (None, e, db')
  | None => (scan_rows rows [], db')
  end.

(** [func (u *UserRep) GetByEmail(email string) (ptr User, error)] *)
Definition UserRep_GetByEmail (email : string) (db : D) : option User * err * D :=
  let '(user, e, db') := db_QueryRowScan email db in
  if decide (e = Some ErrNoRows) then (None, None, db')
  else (Some user, e, db').

#[global] Instance UserRep_UserRepository : UserRepository D := {|
  rep_Create := UserRep_Create;
  rep_List := UserRep_List;
  rep_GetByEmail := UserRep_GetByEmail;
|}.
End UserRep.

(** ** The caching proxy *)

(** Which variable [&user] names inside [for _, user := range users]:
    one per iteration (Go 1.22 and later) or one for the whole loop
    (earlier language versions).  The repository's [go.mod] decides. *)
Inductive LoopVar :=
  | PerIteration
  | PerLoop.

(** What a call that may panic yields. *)
Inductive outcome (A : Type) :=
  | Returned (a : A)
  | Panicked.
Arguments Returned {A} a.
Arguments Panicked {A}.

(** Everything a [CachedUserRep] can reach: the heap, the map of its
    [cache], the state behind its [rep], and the log of the calls made on
    [rep]. *)
Record World (St : Type) := mkWorld {
  heap : Heap;
  cache : UserCache;
  rep : St;
  calls : list RepCall;
}.
Arguments mkWorld {St} heap cache rep calls.
Arguments heap {St} w.
Arguments cache {St} w.
Arguments rep {St} w.
Arguments calls {St} w.

Section CachedUserRep.
Context {St : Type} `{UserRepository St}.

(** [NewCachedUserRep(rep)] on a given heap. *)
Definition NewCachedUserRep (h : Heap) (s : St) : World St :=
  mkWorld h NewUserCache s [].

(** [func (c *CachedUserRep) Create(ctx, user User) error] *)
Definition CachedUserRep_Create (user : User) (w : World St) : err * World St :=
  let '(e, s') := rep_Create user (rep w) in
  let log := calls w ++ [CallCreate user] in
  match e with
  | None =>
      let '(p, h') := alloc (heap w) user in
      (e, mkWorld h' (UserCache_Set (Email user) p (cache w)) s' log)
  | Some _ => (e, mkWorld (heap w) (cache w) s' log)
  end.

(** The loop [for _, user := range users { c.cache.Set(user.Email, &user) }]
    with a variable per iteration: every [&user] is a new cell. *)
Fixpoint populate_per_iteration (users : list User) (h : Heap) (c : UserCache)
    : Heap * UserCache :=
  match users with
  | [] => (h, c)
  | user :: users' =>
      let '(p, h') := alloc h user in
      populate_per_iteration users' h' (UserCache_Set (Email user) p c)
  end.

(** The same loop with one variable for the whole loop: each iteration
    assigns to the cell at [l] and caches its address. *)
Fixpoint populate_shared (l : loc) (users : list User) (h : Heap) (c : UserCache)
    : Heap * UserCache :=
  match users with
  | [] => (h, c)
  | user :: users' =>
      populate_shared l users' (<[l := user]> h) (UserCache_Set (Email user) (Addr l) c)
  end.

Definition populate_per_loop (users : list User) (h : Heap) (c : UserCache)
    : Heap * UserCache :=
  match users with
  | [] => (h, c)
  | _ :: _ => populate_shared (length h) users (h ++ [zero_User]) c
  end.

Definition populate (lv : LoopVar) (users : list User) (h : Heap) (c : UserCache)
    : Heap * UserCache :=
  match lv with
  | PerIteration => populate_per_iteration users h c
  | PerLoop => populate_per_loop users h c
  end.

(** [func (c *CachedUserRep) List(ctx) ([]User, error)] *)
Definition CachedUserRep_List (lv : LoopVar) (ρ : list nat) (w : World St)
    : outcome (slice * err) * World St :=
  match UserCache_List ρ (cache w) (heap w) with
  | None => (Panicked, w)
  | Some cachedUsers =>
      if decide (0 < length cachedUsers) then (Returned (Some cachedUsers, None), w)
      else
        let '(users, e, s') := rep_List (rep w) in
        let log := calls w ++ [CallList] in
        match e with
        | None =>
            let '(h', c') := populate lv (slice_elems users) (heap w) (cache w) in
            (Returned (users, e), mkWorld h' c' s' log)
        | Some _ => (Returned (users, e), mkWorld (heap w) (cache w) s' log)
        end
  end.

(** [func (c *CachedUserRep) GetByEmail(email string) (ptr User, error)] *)
Definition CachedUserRep_GetByEmail (email : string) (w : World St)
    : ptr * err * World St :=
  match UserCache_Get email (cache w) with
  | (user, true) => (user, None, w)
  | (_, false) =>
      let '(r, e, s') := rep_GetByEmail email (rep w) in
      let '(user, h') :=
        match r with
        | Some u => alloc (heap w) u
        | None => (Nil, heap w)
        end in
      let log := calls w ++ [CallGetByEmail email] in
      if decide (e = Some ErrNoRows) then (Nil, None, mkWorld h' (cache w) s' log)
      else if decide (e = None ∧ user ≠ Nil)
      then (user, e, mkWorld h' (UserCache_Set email user (cache w)) s' log)
      else (user, e, mkWorld h' (cache w) s' log)
  end.

(** The operations of the cache and of the proxy, and their effect on the
    world.  The cache operations act on the proxy's cache directly. *)
Inductive Op :=
  | OpCacheGet (email : string)
  | OpCacheSet (email : string) (user : ptr)
  | OpCacheList (ρ : list nat)
  | OpCreate (user : User)
  | OpList (lv : LoopVar) (ρ : list nat)
  | OpGetByEmail (email : string).

Definition exec_op (o : Op) (w : World St) : World St :=
  match o with
  | OpCacheGet _ | OpCacheList _ => w
  | OpCacheSet email user =>
      mkWorld (heap w) (UserCache_Set email user (cache w)) (rep w) (calls w)
  | OpCreate user => (CachedUserRep_Create user w).2
  | OpList lv ρ => (CachedUserRep_List lv ρ w).2
  | OpGetByEmail email => (CachedUserRep_GetByEmail email w).2
  end.

Definition exec_ops (os : list Op) (w : World St) : World St :=
  foldl (λ w o, exec_op o w) w os.

(** The operations a caller of the proxy can make: the [cache] field is
    not exported, so nothing else writes to the map. *)
Definition proxy_op (o : Op) : bool :=
  match o with
  | OpCreate _ | OpList _ _ | OpGetByEmail _ => true
  | OpCacheGet _ | OpCacheSet _ _ | OpCacheList _ => false
  end.

(** Every entry of the cache points to an allocated cell. *)
Definition cache_ok (w : World St) : Prop :=
  ∀ email p, cache w !! email = Some p → is_Some (deref (heap w) p).

(** The records the cache holds, in key order. *)
Definition cached_records (w : World St) : list (option User) :=
  (λ kv, deref (heap w) kv.2) <$> map_to_list (cache w).

(** The claim that a cold [List] leaves every returned record readable
    from the cache under its own email. *)
Definition List_caches_every_record (lv : LoopVar) (ρ : list nat) (w : World St) : Prop :=
  cache w = ∅ →
  ∀ us s', rep_List (rep w) = (us, None, s') →
    (CachedUserRep_List lv ρ w).1 = Returned (us, None) ∧
    ∀ u, u ∈ slice_elems us →
      ∃ p, UserCache_Get (Email u) (cache (CachedUserRep_List lv ρ w).2) = (p, true) ∧
           deref (heap (CachedUserRep_List lv ρ w).2) p = Some u.

(** [List] answers from the cache alone: it returns the dereferenced
    entries of the cache, in some order, and leaves the world, and with it
    the log of repository calls, as it was. *)
Definition served_from_cache (lv : LoopVar) (ρ : list nat) (w : World St) : Prop :=
  ∃ us, CachedUserRep_List lv ρ w = (Returned (Some us, None), w) ∧
        Some <$> us ≡ₚ cached_records w.

(** What the repository's [GetByEmail] may answer for an email it does not
    hold: the [sql.ErrNoRows] sentinel, or a nil record with a nil error. *)
Definition not_found (r : option User) (e : err) : Prop :=
  e = Some ErrNoRows ∨ (r = None ∧ e = None).

End CachedUserRep.

(** ** An in-memory database

    A stand-in for the SQLite file behind [UserRep], used to run the model
    on concrete inputs: the [users] table as a list of rows (the table has
    no uniqueness constraint on [email]), and a connection that may be
    closed, in which case every statement fails. *)

Record MemDB := mkMemDB {
  rows : list User;
  closed : bool;
}.

Definition errClosed : error := ErrOther "sql: database is closed".

Definition MemDB_ExecInsert (user : User) (db : MemDB) : err * MemDB :=
  if closed db then (Some errClosed, db)
  else (None, mkMemDB (rows db ++ [user]) false).

Definition MemDB_QueryAll (db : MemDB) : list (User * err) * err * MemDB :=
  if closed db then ([], Some errClosed, db)
  else (map (λ u, (u, None)) (rows db), None, db).

Definition MemDB_QueryRowScan (email : string) (db : MemDB) : User * err * MemDB :=
  if closed db then (zero_User, Some errClosed, db)
  else match filter (λ u, Email u = email) (rows db) with
       | u :: _ => (u, None, db)
       | [] => (zero_User, Some ErrNoRows, db)
       end.

#[global] Instance MemDB_SqlDB : SqlDB MemDB := {|
  db_ExecInsert := MemDB_ExecInsert;
  db_QueryAll := MemDB_QueryAll;
  db_QueryRowScan := MemDB_QueryRowScan;
|}.

(** Sample records. *)
Definition alice : User := mkUser "alice@example.com" "secret1" "Alice" 30.
Definition alicia : User := mkUser "alice@example.com" "secret2" "Alicia" 41.
Definition bob : User := mkUser "bob@example.com" "hunter2" "Bob" 25.
Definition carol : User := mkUser "carol@example.com" "letmein" "Carol" 17.
Definition dave : User := mkUser "dave@example.com" "passw0rd" "Dave" 52.

(** Sample worlds: a proxy just created over an empty table, over a table
    with two users, and over a closed connection. *)
Definition world_empty : World MemDB := NewCachedUserRep [] (mkMemDB [] false).
Definition world_two : World MemDB := NewCachedUserRep [] (mkMemDB [alice; bob] false).
Definition world_closed : World MemDB := NewCachedUserRep [] (mkMemDB [alice] true).

(** ** The lock discipline of the cache

    [UserCache] guards its map with one [sync.RWMutex]: [Set] runs between
    [Lock] and the deferred [Unlock], [Get] and [List] between [RLock] and
    the deferred [RUnlock].  Threads are interleaved one instruction at a
    time. *)
Module Locking.

(** The state of a [sync.RWMutex]: whether a writer holds it, whether a
    writer has announced itself and waits for the readers to leave, and
    how many readers hold it. *)
Record RWMutex := mkRWMutex {
  writer : bool;
  pending : bool;
  readers : nat;
}.

(** [Lock] takes two steps: [ILock] announces the writer, which keeps
    other writers and new readers out, and leaves [IDrain], which waits
    until the readers inside have left. *)
Inductive instr :=
  | ILock
  | IDrain
  | IUnlock
  | IRLock
  | IRUnlock
  | IAssign (email : string) (user : ptr)
  | ILookup (email : string)
  | IRange.

Inductive call :=
  | CSet (email : string) (user : ptr)
  | CGet (email : string)
  | CList.

(** The instructions of each method of [UserCache], the deferred unlock
    last. *)
Definition body (c : call) : list instr :=
  match c with
  | CSet email user => [ILock; IAssign email user; IUnlock]
  | CGet email => [IRLock; ILookup email; IRUnlock]
  | CList => [IRLock; IRange; IRUnlock]
  end.

(** Whether the next instruction can proceed. *)
Definition enabled (m : RWMutex) (i : instr) : bool :=
  match i with
  | ILock | IRLock => negb (writer m) && negb (pending m)
  | IDrain => bool_decide (readers m = 0)
  | IUnlock => writer m
  | IRUnlock => bool_decide (0 < readers m)
  | IAssign _ _ | ILookup _ | IRange => true
  end.

Record config := mkConfig {
  mutex : RWMutex;
  users : UserCache;
  threads : list (list instr);
}.

Definition exec (i : instr) (m : RWMutex) (c : UserCache) : RWMutex * UserCache :=
  match i with
  | ILock => (mkRWMutex (writer m) true (readers m), c)
  | IDrain => (mkRWMutex true false (readers m), c)
  | IUnlock => (mkRWMutex false (pending m) (readers m), c)
  | IRLock => (mkRWMutex (writer m) (pending m) (S (readers m)), c)
  | IRUnlock => (mkRWMutex (writer m) (pending m) (pred (readers m)), c)
  | IAssign email user => (m, <[email := user]> c)
  | ILookup _ | IRange => (m, c)
  end.

(** What is left of a thread [i :: t] once [i] has run. *)
Definition rest (i : instr) (t : list instr) : list instr :=
  match i with
  | ILock => IDrain :: t
  | _ => t
  end.

(** Thread [k] takes one step; [None] when it has finished or is blocked. *)
Definition step (k : nat) (cfg : config) : option config :=
  match threads cfg !! k with
  | Some (i :: t) =>
      if enabled (mutex cfg) i then
        let '(m, c) := exec i (mutex cfg) (users cfg) in
        Some (mkConfig m c (<[k := rest i t]> (threads cfg)))
      else None
  | _ => None
  end.

(** A schedule names the thread that runs at each step. *)
Fixpoint run (sched : list nat) (cfg : config) : option config :=
  match sched with
  | [] => Some cfg
  | k :: sched' =>
      match step k cfg with
      | Some cfg' => run sched' cfg'
      | None => None
      end
  end.

(** Each thread makes a sequence of calls on one cache whose lock is free. *)
Definition start (c : UserCache) (cs : list (list call)) : config :=
  mkConfig (mkRWMutex false false 0) c (map (λ calls, concat (map body calls)) cs).

(** Thread [k] is blocked: it has a next instruction that cannot proceed. *)
Definition blocked (cfg : config) (k : nat) : bool :=
  match threads cfg !! k with
  | Some (i :: _) => negb (enabled (mutex cfg) i)
  | _ => false
  end.

(** Where a thread stands, read off the next lock operation it will make:
    a thread that will next [Unlock] is inside [Set]'s critical section,
    one that will next [RUnlock] is inside [Get]'s or [List]'s, one that
    waits for the readers to leave has announced a [Set]. *)
Inductive status :=
  | Outside
  | Announced
  | Reading
  | Writing.

#[global] Instance status_eq_dec : EqDecision status.
Proof. solve_decision. Defined.

Fixpoint status_of (t : list instr) : status :=
  match t with
  | [] => Outside
  | ILock :: _ | IRLock :: _ => Outside
  | IDrain :: _ => Announced
  | IUnlock :: _ => Writing
  | IRUnlock :: _ => Reading
  | _ :: t' => status_of t'
  end.

(** A [Set] is under way: announced, or inside its critical section. *)
Definition setting (t : list instr) : Prop :=
  status_of t = Announced ∨ status_of t = Writing.

Definition count_status (s : status) (ts : list (list instr)) : nat :=
  length (filter (λ t, status_of t = s) ts).

(** What one instruction does to the standing of a thread. *)
Definition next_status (i : instr) (s : status) : status :=
  match i with
  | ILock => Announced
  | IDrain => Writing
  | IRLock => Reading
  | IUnlock | IRUnlock => Outside
  | _ => s
  end.

(** The shape of a thread's remaining program: a sequence of whole
    calls, possibly preceded by the rest of a call that has announced
    itself or taken its lock. *)
Inductive whole : list instr → Prop :=
  | whole_nil : whole []
  | whole_call c t : whole t → whole (body c ++ t).

Inductive wf : list instr → Prop :=
  | wf_whole t : whole t → wf t
  | wf_announced email user t : whole t → wf (IDrain :: IAssign email user :: IUnlock :: t)
  | wf_locked c t : whole t → wf (drop 1 (body c) ++ t)
  | wf_unlocking c t : whole t → wf (drop 2 (body c) ++ t).

Definition b2n (b : bool) : nat := if b then 1 else 0.

(** The lock state agrees with where the threads stand: a writer holds
    the lock exactly when one thread is inside [Set], a writer is
    announced exactly when one thread waits for the readers, the reader
    count is the number of threads inside [Get] or [List], and a writer
    that holds the lock excludes readers and further writers. *)
Definition mutex_inv (cfg : config) : Prop :=
  Forall wf (threads cfg) ∧
  count_status Writing (threads cfg) = b2n (writer (mutex cfg)) ∧
  count_status Announced (threads cfg) = b2n (pending (mutex cfg)) ∧
  count_status Reading (threads cfg) = readers (mutex cfg) ∧
  (writer (mutex cfg) = true → readers (mutex cfg) = 0 ∧ pending (mutex cfg) = false).

(** The claim that two [Set] calls never hold each other up: in no
    reachable state is either of the two threads blocked. *)
Definition sets_never_block (e1 : string) (p1 : ptr) (e2 : string) (p2 : ptr) : Prop :=
  ∀ sched cfg,
    run sched (start ∅ [[CSet e1 p1]; [CSet e2 p2]]) = Some cfg →
    blocked cfg 0 = false ∧ blocked cfg 1 = false.

(** All threads have run to the end of their programs. *)
Definition finished (cfg : config) : Prop :=
  Forall (λ t, t = []) (threads cfg).


(** The effect on the map of a sequence of calls made one after the
    other. *)
Definition apply_call (c : UserCache) (k : call) : UserCache :=
  match k with
  | CSet email user => UserCache_Set email user c
  | CGet _ | CList => c
  end.

(** The schedule of one thread running [n] calls on its own: four steps
    for a [Set], three for a [Get] or a [List]. *)
Definition steps_of (k : call) : nat :=
  match k with
  | CSet _ _ => 4
  | CGet _ | CList => 3
  end.

(** How many steps a thread still has to take: [Lock] takes two. *)
Definition weight (t : list instr) : nat :=
  sum_list ((λ i, match i with ILock => 2 | _ => 1 end) <$> t).

Definition total_weight (cfg : config) : nat :=
  sum_list (weight <$> threads cfg).


End Locking.

(** ** The service layer *)

(** [errors.New] values of [UserServ.Create]. *)
Definition errUnderage : error :=
  ErrOther "возраст пользователя меньше 18 лет".
Definition errRegistered : error :=
  ErrOther "пользователь с таким email уже зарегистрирован".

Section UserServ.
Context {St : Type} `{UserRepository St}.

(** [func (u *UserServ) Create(ctx, user User) error], with the repository
    [main] gives the service: [&UserServ{rep: cachedUserRep}]. *)
Definition UserServ_Create (user : User) (w : World St) : err * World St :=
  if decide (Age user < 18)%Z then (Some errUnderage, w)
  else
    let '(existingUser, e, w1) := CachedUserRep_GetByEmail (Email user) w in
    match e with
    | Some _ => (e, w1)
    | None =>
        if decide (existingUser ≠ Nil) then (Some errRegistered, w1)
        else CachedUserRep_Create user w1
    end.

(** [func (u *UserServ) List(ctx) ([]User, error)] *)
Definition UserServ_List (lv : LoopVar) (ρ : list nat) (w : World St)
    : outcome (slice * err) * World St :=
  CachedUserRep_List lv ρ w.

(** ** The controller layer *)

(** What a handler leaves in its [http.ResponseWriter]: the status code
    and the body. *)
Record Response := mkResponse {
  Code : nat;
  Body : string;
}.

Definition StatusCreated : nat := 201.
Definition StatusBadRequest : nat := 400.
Definition StatusInternalServerError : nat := 500.

(** [err.Error()] *)
Definition Error_text (e : error) : string :=
  match e with
  | ErrNoRows => "sql: no rows in result set"
  | ErrOther msg => msg
  end.

(** [http.Error(w, msg, code)]: the code, and the message on a line. *)
Definition http_Error (msg : string) (code : nat) : Response :=
  mkResponse code (msg +:+ String (Ascii.ascii_of_nat 10) EmptyString).

(** [func (u *UserContr) Create(w, r)].  [decoded] is what
    [json.NewDecoder(r.Body).Decode(&user)] leaves in [user] and the error
    it returns. *)
Definition UserContr_Create (decoded : User * err) (w : World St) : Response * World St :=
  let '(user, e) := decoded in
  match e with
  | Some e => (http_Error (Error_text e) StatusBadRequest, w)
  | None =>
      match UserServ_Create user w with
      | (Some e, w') => (http_Error (Error_text e) StatusInternalServerError, w')
      | (None, w') => (mkResponse StatusCreated EmptyString, w')
      end
  end.

End UserServ.

(** * Properties *)

(** ** The order of a range loop *)

Lemma insert_at_perm {A} (k : nat) (x : A) (l : list A) : insert_at k x l ≡ₚ x :: l.
Proof.
  unfold insert_at. rewrite <- Permutation_middle.
  by rewrite take_drop.
Qed.

Lemma range_order_perm {A} (ρ : list nat) (l : list A) : range_order ρ l ≡ₚ l.
Proof.
  revert ρ. induction l as [|x l IH]; intros ρ; simpl; [done|].
  rewrite insert_at_perm. by rewrite IH.
Qed.

Lemma range_order_length {A} (ρ : list nat) (l : list A) :
  length (range_order ρ l) = length l.
Proof. by rewrite range_order_perm. Qed.

(** Every order is one the runtime may choose. *)
Lemma insert_at_split {A} (x : A) (l1 l2 : list A) :
  insert_at (length l1) x (l1 ++ l2) = l1 ++ x :: l2.
Proof.
  unfold insert_at. by rewrite take_app_length, drop_app_length.
Qed.

Lemma range_order_complete {A} (l l' : list A) :
  l ≡ₚ l' → ∃ ρ, range_order ρ l = l'.
Proof.
  revert l'. induction l as [|x l IH]; intros l' Hp.
  - apply Permutation_nil_l in Hp. subst. by exists [].
  - assert (x ∈ l') as Hx by (rewrite <- Hp; left).
    apply list_elem_of_split in Hx as (l1 & l2 & ->).
    apply Permutation_cons_app_inv in Hp.
    destruct (IH _ Hp) as [ρ Hρ].
    exists (length l1 :: ρ). simpl. rewrite Hρ. apply insert_at_split.
Qed.

(** ** The cache *)

Lemma UserCache_Get_Some (email : string) (c : UserCache) (p : ptr) :
  UserCache_Get email c = (p, true) ↔ c !! email = Some p.
Proof.
  unfold UserCache_Get. destruct (c !! email); split; intros; simplify_eq; done.
Qed.

Lemma UserCache_Get_None (email : string) (c : UserCache) :
  (UserCache_Get email c).2 = false ↔ c !! email = None.
Proof.
  unfold UserCache_Get. destruct (c !! email); split; intros; simplify_eq/=; done.
Qed.

Lemma UserCache_Get_Set (email : string) (p : ptr) (c : UserCache) :
  UserCache_Get email (UserCache_Set email p c) = (p, true).
Proof. apply UserCache_Get_Some, lookup_insert_eq. Qed.

Lemma UserCache_Set_dom (email : string) (p : ptr) (c : UserCache) :
  dom c ⊆ dom (UserCache_Set email p c).
Proof. unfold UserCache_Set. rewrite dom_insert_L. set_solver. Qed.

Lemma UserCache_List_length (ρ : list nat) (c : UserCache) (h : Heap) (us : list User) :
  UserCache_List ρ c h = Some us → length us = size c.
Proof.
  unfold UserCache_List. intros Hm. apply length_mapM in Hm.
  by rewrite <- Hm, range_order_length, length_map_to_list.
Qed.

Lemma mapM_fmap_Some {A B} (f : A → option B) (l : list A) (k : list B) :
  mapM f l = Some k → f <$> l = Some <$> k.
Proof.
  rewrite mapM_Some. induction 1 as [|x y l k Hxy _ IH]; [done|].
  rewrite !fmap_cons. by rewrite Hxy, IH.
Qed.

Lemma UserCache_List_Some (ρ : list nat) (c : UserCache) (h : Heap) :
  (∀ email p, c !! email = Some p → is_Some (deref h p)) →
  ∃ us, UserCache_List ρ c h = Some us ∧
        Some <$> us ≡ₚ (λ kv, deref h kv.2) <$> map_to_list c.
Proof.
  intros Hok. unfold UserCache_List.
  destruct (mapM _ _) as [us|] eqn:Hm.
  - exists us. split; [done|].
    apply mapM_fmap_Some in Hm. rewrite <- Hm.
    by rewrite range_order_perm.
  - exfalso. apply eq_None_not_Some in Hm. apply Hm.
    apply mapM_is_Some, Forall_forall. intros [email p] Hin.
    rewrite range_order_perm in Hin.
    apply elem_of_map_to_list in Hin. simpl. eauto.
Qed.

Lemma UserCache_List_empty (ρ : list nat) (h : Heap) :
  UserCache_List ρ ∅ h = Some [].
Proof. unfold UserCache_List. by rewrite map_to_list_empty. Qed.

(** ** Populating the cache from a listing *)

Lemma populate_per_iteration_snoc (us : list User) (u : User) (h : Heap) (c : UserCache) :
  populate_per_iteration (us ++ [u]) h c =
  let '(h', c') := populate_per_iteration us h c in
  (h' ++ [u], UserCache_Set (Email u) (Addr (length h')) c').
Proof.
  revert h c. induction us as [|v us IH]; intros h c; simpl; [done|].
  apply IH.
Qed.

Lemma populate_per_iteration_heap (us : list User) (h : Heap) (c : UserCache) :
  (populate_per_iteration us h c).1 = h ++ us.
Proof.
  revert h c. induction us as [|v us IH]; intros h c; simpl.
  - by rewrite app_nil_r.
  - rewrite IH. by rewrite <- app_assoc.
Qed.

Lemma populate_per_iteration_dom (us : list User) (h : Heap) (c : UserCache) :
  dom c ⊆ dom (populate_per_iteration us h c).2.
Proof.
  revert h c. induction us as [|v us IH]; intros h c; simpl; [done|].
  etrans; [|apply IH]. apply UserCache_Set_dom.
Qed.

(** After the loop, the entry under an email that occurs in the listing
    points to the last listed record with that email. *)
Lemma populate_per_iteration_lookup (us : list User) (h : Heap) (c : UserCache) (u : User) :
  u ∈ us →
  ∃ l u', (populate_per_iteration us h c).2 !! Email u = Some (Addr l) ∧
          (h ++ us) !! l = Some u' ∧
          last (filter (λ v, Email v = Email u) us) = Some u'.
Proof.
  induction us as [|v us IH] using rev_ind; intros Hin; [by apply elem_of_nil in Hin|].
  rewrite populate_per_iteration_snoc.
  pose proof (populate_per_iteration_heap us h c) as Hh.
  destruct (populate_per_iteration us h c) as [h' c'] eqn:Hp. simpl in Hh. subst h'.
  rewrite filter_app. simpl.
  destruct (decide (Email v = Email u)) as [Heq|Hne].
  - exists (length (h ++ us)), v. rewrite Heq. unfold UserCache_Set.
    rewrite lookup_insert_eq. split_and!; [done| |].
    + rewrite app_assoc. by rewrite lookup_app_r, Nat.sub_diag by lia.
    + rewrite filter_cons_True by done. rewrite filter_nil. apply last_snoc.
  - apply elem_of_app in Hin as [Hin|Hin]; [|apply list_elem_of_singleton in Hin; by subst].
    destruct (IH Hin) as (l & u' & Hl & Hhl & Hlast). simpl in Hl.
    exists l, u'. unfold UserCache_Set. rewrite lookup_insert_ne by done.
    split_and!; [done| |].
    + rewrite app_assoc. apply lookup_app_l_Some. done.
    + rewrite filter_cons_False by done. rewrite filter_nil, app_nil_r. done.
Qed.

Lemma NoDup_fmap_eq {A B} (f : A → B) (l : list A) (x y : A) :
  NoDup (f <$> l) → x ∈ l → y ∈ l → f x = f y → x = y.
Proof.
  induction l as [|a l IH]; simpl; intros Hnd Hx Hy Hf; [by apply elem_of_nil in Hx|].
  apply NoDup_cons in Hnd as [Hna Hnd].
  apply elem_of_cons in Hx as [->|Hx]; apply elem_of_cons in Hy as [->|Hy]; auto.
  - exfalso. apply Hna. rewrite Hf. by apply list_elem_of_fmap_2.
  - exfalso. apply Hna. rewrite <- Hf. by apply list_elem_of_fmap_2.
Qed.

Lemma last_filter_unique (us : list User) (u u' : User) :
  NoDup (Email <$> us) → u ∈ us →
  last (filter (λ v, Email v = Email u) us) = Some u' → u' = u.
Proof.
  intros Hnd Hin Hlast.
  assert (u' ∈ filter (λ v, Email v = Email u) us) as Hu'.
  { apply last_Some in Hlast as [l' ->]. apply elem_of_app. right. left. }
  apply list_elem_of_filter in Hu' as [Heq Hu'].
  by apply (NoDup_fmap_eq Email us).
Qed.

(** ** The proxy *)

Lemma deref_alloc (h : Heap) (u : User) :
  deref (alloc h u).2 (alloc h u).1 = Some u.
Proof. simpl. by rewrite lookup_app_r, Nat.sub_diag by lia. Qed.

Section Proxy.
Context {St : Type} `{UserRepository St}.

Lemma Create_ok (user : User) (w : World St) (s' : St) :
  rep_Create user (rep w) = (None, s') →
  CachedUserRep_Create user w =
    (None, mkWorld (heap w ++ [user])
                   (<[Email user := Addr (length (heap w))]> (cache w))
                   s' (calls w ++ [CallCreate user])).
Proof. intros Hr. unfold CachedUserRep_Create. by rewrite Hr. Qed.

Lemma Create_err (user : User) (w : World St) (e : error) (s' : St) :
  rep_Create user (rep w) = (Some e, s') →
  CachedUserRep_Create user w =
    (Some e, mkWorld (heap w) (cache w) s' (calls w ++ [CallCreate user])).
Proof. intros Hr. unfold CachedUserRep_Create. by rewrite Hr. Qed.

Lemma Create_inv (user : User) (w w' : World St) :
  CachedUserRep_Create user w = (None, w') →
  ∃ s', rep_Create user (rep w) = (None, s').
Proof.
  unfold CachedUserRep_Create.
  destruct (rep_Create user (rep w)) as [[e|] s']; simpl; intros; simplify_eq.
  by exists s'.
Qed.

Lemma GetByEmail_hit (email : string) (w : World St) (p : ptr) :
  cache w !! email = Some p →
  CachedUserRep_GetByEmail email w = (p, None, w).
Proof.
  intros Hc. unfold CachedUserRep_GetByEmail, UserCache_Get. by rewrite Hc.
Qed.

Lemma GetByEmail_found (email : string) (w : World St) (u : User) (s' : St) :
  cache w !! email = None →
  rep_GetByEmail email (rep w) = (Some u, None, s') →
  CachedUserRep_GetByEmail email w =
    (Addr (length (heap w)), None,
     mkWorld (heap w ++ [u]) (<[email := Addr (length (heap w))]> (cache w))
             s' (calls w ++ [CallGetByEmail email])).
Proof.
  intros Hc Hr. unfold CachedUserRep_GetByEmail, UserCache_Get.
  rewrite Hc, Hr. simpl.
  repeat case_decide; naive_solver.
Qed.

Lemma GetByEmail_not_found (email : string) (w : World St) (r : option User) (e : err) (s' : St) :
  cache w !! email = None →
  rep_GetByEmail email (rep w) = (r, e, s') →
  not_found r e →
  (CachedUserRep_GetByEmail email w).1 = (Nil, None) ∧
  cache (CachedUserRep_GetByEmail email w).2 = cache w ∧
  calls (CachedUserRep_GetByEmail email w).2 = calls w ++ [CallGetByEmail email].
Proof.
  intros Hc Hr Hnf. unfold CachedUserRep_GetByEmail, UserCache_Get.
  rewrite Hc, Hr. destruct Hnf as [->|[-> ->]].
  - destruct r; simpl; repeat case_decide; naive_solver.
  - simpl. repeat case_decide; naive_solver.
Qed.

(** C2. After a successful [Create(r)] the cache holds, under [r.Email],
    a pointer to a record equal to [r], the record the repository was just
    asked to store; and after a [GetByEmail(e)] that misses the cache and
    for which the repository finds a record [u], the proxy returns a
    pointer to [u] and the cache holds that pointer under [e]. *)
Theorem cache_holds_store_record (w : World St) :
  (∀ r w', CachedUserRep_Create r w = (None, w') →
     ∃ p, UserCache_Get (Email r) (cache w') = (p, true) ∧
          deref (heap w') p = Some r ∧
          last (calls w') = Some (CallCreate r)) ∧
  (∀ e u s', (UserCache_Get e (cache w)).2 = false →
     rep_GetByEmail e (rep w) = (Some u, None, s') →
     ∃ p w', CachedUserRep_GetByEmail e w = (p, None, w') ∧
             UserCache_Get e (cache w') = (p, true) ∧
             deref (heap w') p = Some u).
Proof.
  split.
  - intros r w' Hcr. destruct (Create_inv _ _ _ Hcr) as [s' Hs].
    rewrite (Create_ok _ _ _ Hs) in Hcr. simplify_eq. simpl.
    exists (Addr (length (heap w))). split_and!.
    + apply UserCache_Get_Set.
    + apply (deref_alloc (heap w) r).
    + apply last_snoc.
  - intros e u s' Hmiss Hr. apply UserCache_Get_None in Hmiss.
    rewrite (GetByEmail_found _ _ _ _ Hmiss Hr).
    eexists _, _. split; [done|]. simpl. split.
    + apply UserCache_Get_Set.
    + apply (deref_alloc (heap w) u).
Qed.

(** C4. After [Create(r)] succeeds, [GetByEmail(r.Email)] returns a pointer
    to a record equal to [r] with a nil error, and leaves the world as it
    was: in particular the log of repository calls gains nothing. *)
Theorem get_after_create (r : User) (w w1 : World St) :
  CachedUserRep_Create r w = (None, w1) →
  ∃ p, CachedUserRep_GetByEmail (Email r) w1 = (p, None, w1) ∧
       deref (heap w1) p = Some r.
Proof.
  intros Hcr. destruct (Create_inv _ _ _ Hcr) as [s' Hs].
  rewrite (Create_ok _ _ _ Hs) in Hcr. simplify_eq.
  exists (Addr (length (heap w))). split.
  - apply GetByEmail_hit. simpl. apply lookup_insert_eq.
  - apply (deref_alloc (heap w) r).
Qed.

(** C5. For an email the cache does not hold, if the repository finds a
    record, then the first [GetByEmail] makes one repository call, and a
    second identical [GetByEmail] returns the same pointer, to the same
    record, and makes none. *)
Theorem miss_then_populate (e : string) (u : User) (s' : St) (w : World St) :
  (UserCache_Get e (cache w)).2 = false →
  rep_GetByEmail e (rep w) = (Some u, None, s') →
  ∃ p w1, CachedUserRep_GetByEmail e w = (p, None, w1) ∧
          calls w1 = calls w ++ [CallGetByEmail e] ∧
          deref (heap w1) p = Some u ∧
          CachedUserRep_GetByEmail e w1 = (p, None, w1).
Proof.
  intros Hmiss Hr. apply UserCache_Get_None in Hmiss.
  rewrite (GetByEmail_found _ _ _ _ Hmiss Hr).
  eexists _, _. split; [done|]. simpl. split_and!.
  - done.
  - apply (deref_alloc (heap w) u).
  - apply GetByEmail_hit. simpl. apply lookup_insert_eq.
Qed.

(** C7. If the repository's [Create(r)] returns an error, the proxy's
    [Create(r)] returns that error, and the cache (and the heap behind it)
    is what it was before the call. *)
Theorem create_error_passthrough (r : User) (e : error) (s' : St) (w : World St) :
  rep_Create r (rep w) = (Some e, s') →
  (CachedUserRep_Create r w).1 = Some e ∧
  cache (CachedUserRep_Create r w).2 = cache w ∧
  heap (CachedUserRep_Create r w).2 = heap w.
Proof. intros Hr. by rewrite (Create_err _ _ _ _ Hr). Qed.

End Proxy.

(** ** The SQL repository *)

Lemma scan_rows_error (rows : list (User * err)) (users : list User) (e : error) :
  (scan_rows rows users).2 = Some e → (scan_rows rows users).1 = None.
Proof.
  revert users. induction rows as [|[u [e'|]] rows IH]; intros users; simpl; [done..|].
  apply IH.
Qed.

Lemma UserRep_List_error {D : Type} `{SqlDB D} (db db' : D) (us : slice) (e : error) :
  UserRep_List db = (us, Some e, db') → us = None.
Proof.
  unfold UserRep_List. destruct (db_QueryAll db) as [[rows [e0|]] db0].
  - intros; by simplify_eq.
  - destruct (scan_rows rows []) as [us0 e1] eqn:Hs. intros; simplify_eq.
    pose proof (scan_rows_error rows [] e) as Hse. rewrite Hs in Hse. by apply Hse.
Qed.

Lemma UserRep_GetByEmail_no_rows {D : Type} `{SqlDB D} (email : string) (db db' : D) (u : User) :
  db_QueryRowScan email db = (u, Some ErrNoRows, db') →
  UserRep_GetByEmail email db = (None, None, db').
Proof. intros Hq. unfold UserRep_GetByEmail. rewrite Hq. by rewrite decide_True. Qed.

(** C6. A [GetByEmail] for an email the cache does not hold returns a nil
    pointer and a nil error, and leaves the cache as it was, whenever the
    repository reports the email as not found, be it by [sql.ErrNoRows] or
    by a nil record with a nil error; and [UserRep] reports it so when
    [row.Scan] finds no row. *)
Theorem get_absent_returns_nil {St : Type} `{UserRepository St} {D : Type} `{SqlDB D}
    (email : string) (w : World St) (wd : World D) :
  ((UserCache_Get email (cache w)).2 = false →
   ∀ r e s', rep_GetByEmail email (rep w) = (r, e, s') → not_found r e →
     (CachedUserRep_GetByEmail email w).1 = (Nil, None) ∧
     cache (CachedUserRep_GetByEmail email w).2 = cache w) ∧
  ((UserCache_Get email (cache wd)).2 = false →
   ∀ u db', db_QueryRowScan email (rep wd) = (u, Some ErrNoRows, db') →
     (CachedUserRep_GetByEmail (H := UserRep_UserRepository) email wd).1 = (Nil, None) ∧
     cache (CachedUserRep_GetByEmail (H := UserRep_UserRepository) email wd).2 = cache wd).
Proof.
  split.
  - intros Hmiss r e s' Hr Hnf. apply UserCache_Get_None in Hmiss.
    destruct (GetByEmail_not_found _ _ _ _ _ Hmiss Hr Hnf) as (? & ? & ?). done.
  - intros Hmiss u db' Hq. apply UserCache_Get_None in Hmiss.
    apply UserRep_GetByEmail_no_rows in Hq.
    destruct (GetByEmail_not_found (H := UserRep_UserRepository)
                email wd None None db' Hmiss Hq) as (? & ? & ?); [by right|done].
Qed.

(** ** Listing through the proxy *)

Section ProxyList.
Context {St : Type} `{UserRepository St}.

Lemma List_cold (lv : LoopVar) (ρ : list nat) (w : World St) :
  cache w = ∅ →
  CachedUserRep_List lv ρ w =
    let '(users, e, s') := rep_List (rep w) in
    match e with
    | None =>
        let '(h', c') := populate lv (slice_elems users) (heap w) (cache w) in
        (Returned (users, e), mkWorld h' c' s' (calls w ++ [CallList]))
    | Some _ =>
        (Returned (users, e), mkWorld (heap w) (cache w) s' (calls w ++ [CallList]))
    end.
Proof.
  intros Hc. unfold CachedUserRep_List. rewrite Hc at 1.
  rewrite UserCache_List_empty. simpl. done.
Qed.

Lemma List_warm (lv : LoopVar) (ρ : list nat) (w : World St) :
  cache_ok w → cache w ≠ ∅ → served_from_cache lv ρ w.
Proof.
  intros Hok Hne. unfold served_from_cache, CachedUserRep_List.
  destruct (UserCache_List_Some ρ (cache w) (heap w) Hok) as (us & Hus & Hperm).
  rewrite Hus. exists us. split; [|done].
  apply UserCache_List_length in Hus.
  rewrite decide_True; [done|].
  rewrite Hus. apply map_size_non_empty_iff in Hne. lia.
Qed.
(** C10. On a cold [List] (empty cache), if the repository's [List] returns
    an error, the proxy returns that error together with the slice the
    repository returned, and the cache is still empty; the slice [UserRep]
    returns with an error is nil. *)
Theorem List_cold_error {D : Type} `{SqlDB D} (lv : LoopVar) (ρ : list nat) (w : World St) :
  (cache w = ∅ →
   ∀ us e s', rep_List (rep w) = (us, Some e, s') →
     (CachedUserRep_List lv ρ w).1 = Returned (us, Some e) ∧
     cache (CachedUserRep_List lv ρ w).2 = ∅ ∧
     heap (CachedUserRep_List lv ρ w).2 = heap w) ∧
  (∀ (db db' : D) us e, UserRep_List db = (us, Some e, db') → us = None).
Proof.
  split.
  - intros Hc us e s' Hr. rewrite (List_cold lv ρ w Hc), Hr. simpl. done.
  - intros db db' us e. apply UserRep_List_error.
Qed.

(** C1, as the code has it.  On a cold [List] (empty cache) for which the
    repository returns the users [us] without error, the proxy, compiled
    with a loop variable per iteration, returns [us]; afterwards, for every
    [u] in [us], the cache's [Get(u.Email)] finds a pointer to the last
    record of [us] whose email is [u.Email], which is [u] itself when the
    emails of [us] are pairwise distinct. *)
Theorem List_cold_populates (ρ : list nat) (w : World St) (us : slice) (s' : St) :
  cache w = ∅ →
  rep_List (rep w) = (us, None, s') →
  ∃ w', CachedUserRep_List PerIteration ρ w = (Returned (us, None), w') ∧
    ∀ u, u ∈ slice_elems us →
      ∃ p u', UserCache_Get (Email u) (cache w') = (p, true) ∧
              deref (heap w') p = Some u' ∧
              last (filter (λ v, Email v = Email u) (slice_elems us)) = Some u' ∧
              (NoDup (Email <$> slice_elems us) → u' = u).
Proof.
  intros Hc Hr. rewrite (List_cold PerIteration ρ w Hc), Hr. simpl.
  pose proof (populate_per_iteration_heap (slice_elems us) (heap w) (cache w)) as Hh.
  pose proof (populate_per_iteration_lookup (slice_elems us) (heap w) (cache w)) as Hl.
  destruct (populate_per_iteration _ _ _) as [h' c']. simpl in Hh, Hl. subst h'.
  eexists. split; [done|]. simpl. intros u Hu.
  destruct (Hl u Hu) as (l & u' & Hcl & Hhl & Hlast).
  exists (Addr l), u'. split_and!; [by apply UserCache_Get_Some|done..|].
  intros Hnd. by apply (last_filter_unique (slice_elems us)).
Qed.

End ProxyList.

(** ** One loop variable for the whole loop *)

Lemma populate_shared_lookup (l : loc) (us : list User) (h : Heap) (c : UserCache) (e : string) :
  (populate_shared l us h c).2 !! e =
  if decide (e ∈ Email <$> us) then Some (Addr l) else c !! e.
Proof.
  revert h c. induction us as [|v us IH]; intros h c.
  - done.
  - cbn [populate_shared]. rewrite IH. unfold UserCache_Set. rewrite fmap_cons.
    destruct (decide (e ∈ Email <$> us)) as [Hin|Hnin].
    + rewrite decide_True; [done|]. by right.
    + destruct (decide (e = Email v)) as [->|Hne].
      * rewrite lookup_insert_eq. rewrite decide_True; [done|]. by left.
      * rewrite lookup_insert_ne by done. rewrite decide_False; [done|].
        intros [?|?]%elem_of_cons; done.
Qed.

Lemma populate_shared_heap (l : loc) (us : list User) (h : Heap) (c : UserCache) :
  (populate_shared l us h c).1 =
  match last us with Some u => <[l := u]> h | None => h end.
Proof.
  revert h c. induction us as [|v us IH]; intros h c; simpl; [done|].
  rewrite IH. destruct us as [|v' us]; simpl; [done|].
  destruct (last (v' :: us)) eqn:Hlast.
  - by rewrite list_insert_insert_eq.
  - by apply last_None in Hlast.
Qed.


(** ** Cached pointers stay valid, cached emails stay cached *)

Lemma deref_valid (h : Heap) (p : ptr) : is_Some (deref h p) ↔ valid h p.
Proof.
  destruct p as [|l]; simpl; [|apply lookup_lt_is_Some].
  split; [apply is_Some_None|done].
Qed.

Lemma valid_mono (h h' : Heap) (p : ptr) : length h ≤ length h' → valid h p → valid h' p.
Proof. destruct p; simpl; [done|lia]. Qed.

Lemma populate_per_iteration_valid (us : list User) (h : Heap) (c : UserCache) :
  map_Forall (λ _ p, valid h p) c →
  map_Forall (λ _ p, valid (populate_per_iteration us h c).1 p)
             (populate_per_iteration us h c).2.
Proof.
  revert h c. induction us as [|v us IH]; intros h c Hok; simpl; [done|].
  apply IH. unfold UserCache_Set. apply map_Forall_insert_2.
  - simpl. rewrite length_app. simpl. lia.
  - eapply map_Forall_impl; [done|]. intros ? p. apply valid_mono.
    rewrite length_app. lia.
Qed.

Lemma populate_shared_valid (l : loc) (us : list User) (h : Heap) (c : UserCache) :
  l < length h →
  map_Forall (λ _ p, valid h p) c →
  map_Forall (λ _ p, valid (populate_shared l us h c).1 p) (populate_shared l us h c).2.
Proof.
  revert h c. induction us as [|v us IH]; intros h c Hl Hok; simpl; [done|].
  apply IH; [by rewrite length_insert|].
  unfold UserCache_Set. apply map_Forall_insert_2.
  - simpl. by rewrite length_insert.
  - eapply map_Forall_impl; [done|]. intros ? p. apply valid_mono.
    by rewrite length_insert.
Qed.

Lemma populate_valid (lv : LoopVar) (us : list User) (h : Heap) (c : UserCache) :
  map_Forall (λ _ p, valid h p) c →
  map_Forall (λ _ p, valid (populate lv us h c).1 p) (populate lv us h c).2.
Proof.
  intros Hok. destruct lv; simpl; [by apply populate_per_iteration_valid|].
  unfold populate_per_loop. destruct us as [|v us]; [done|].
  apply populate_shared_valid.
  - rewrite length_app. simpl. lia.
  - eapply map_Forall_impl; [done|]. intros ? p. apply valid_mono.
    rewrite length_app. lia.
Qed.

Lemma populate_shared_dom (l : loc) (us : list User) (h : Heap) (c : UserCache) :
  dom c ⊆ dom (populate_shared l us h c).2.
Proof.
  revert h c. induction us as [|v us IH]; intros h c; simpl; [done|].
  etrans; [|apply IH]. apply UserCache_Set_dom.
Qed.

Lemma populate_dom (lv : LoopVar) (us : list User) (h : Heap) (c : UserCache) :
  dom c ⊆ dom (populate lv us h c).2.
Proof.
  destruct lv; simpl; [apply populate_per_iteration_dom|].
  unfold populate_per_loop. destruct us; [done|]. apply populate_shared_dom.
Qed.

Section ProxyInvariants.
Context {St : Type} `{UserRepository St}.

Lemma cache_ok_valid (w : World St) :
  cache_ok w ↔ map_Forall (λ _ p, valid (heap w) p) (cache w).
Proof.
  unfold cache_ok, map_Forall. split; intros Hok email p Hp.
  - by apply deref_valid, (Hok email).
  - by apply deref_valid, (Hok email).
Qed.

Lemma cache_ok_new (h : Heap) (s : St) : cache_ok (NewCachedUserRep h s).
Proof. apply cache_ok_valid. simpl. apply map_Forall_empty. Qed.

Lemma cache_ok_alloc_set (h : Heap) (c : UserCache) (email : string) (u : User) :
  map_Forall (λ _ p, valid h p) c →
  map_Forall (λ _ p, valid (h ++ [u]) p) (<[email := Addr (length h)]> c).
Proof.
  intros Hok. apply map_Forall_insert_2.
  - simpl. rewrite length_app. simpl. lia.
  - eapply map_Forall_impl; [done|]. intros ? p. apply valid_mono.
    rewrite length_app. lia.
Qed.

Lemma cache_ok_alloc (h : Heap) (c : UserCache) (u : User) :
  map_Forall (λ _ p, valid h p) c →
  map_Forall (λ _ p, valid (h ++ [u]) p) c.
Proof.
  intros Hok. eapply map_Forall_impl; [done|]. intros ? p. apply valid_mono.
  rewrite length_app. lia.
Qed.

(** The proxy only ever caches pointers to allocated records. *)
Lemma cache_ok_Create (user : User) (w : World St) :
  cache_ok w → cache_ok (CachedUserRep_Create user w).2.
Proof.
  rewrite !cache_ok_valid. intros Hok. unfold CachedUserRep_Create.
  destruct (rep_Create user (rep w)) as [[e|] s']; simpl; [done|].
  by apply cache_ok_alloc_set.
Qed.

Lemma cache_ok_GetByEmail (email : string) (w : World St) :
  cache_ok w → cache_ok (CachedUserRep_GetByEmail email w).2.
Proof.
  rewrite !cache_ok_valid. intros Hok. unfold CachedUserRep_GetByEmail.
  destruct (UserCache_Get email (cache w)) as [p [|]]; [done|].
  destruct (rep_GetByEmail email (rep w)) as [[[u|] e] s']; simpl.
  - repeat case_decide; simpl;
      [by apply cache_ok_alloc|by apply cache_ok_alloc_set|by apply cache_ok_alloc].
  - repeat case_decide; simpl; try done.
    match goal with Hn : _ ∧ Nil ≠ Nil |- _ => by destruct Hn as [_ []] end.
Qed.

Lemma cache_ok_List (lv : LoopVar) (ρ : list nat) (w : World St) :
  cache_ok w → cache_ok (CachedUserRep_List lv ρ w).2.
Proof.
  intros Hok. unfold CachedUserRep_List.
  destruct (UserCache_List _ _ _) as [cachedUsers|]; [|done].
  case_decide; [done|].
  destruct (rep_List (rep w)) as [[us [e|]] s']; [done|].
  pose proof (populate_valid lv (slice_elems us) (heap w) (cache w)) as Hp.
  destruct (populate _ _ _ _) as [h' c']. simpl in *.
  apply cache_ok_valid. simpl. by apply Hp, cache_ok_valid.
Qed.

(** Every world a proxy reaches through its own methods has a cache whose
    entries point to allocated records. *)
Lemma cache_ok_reachable (os : list Op) (h : Heap) (s : St) :
  forallb proxy_op os = true →
  cache_ok (exec_ops os (NewCachedUserRep h s)).
Proof.
  intros Hos. pose proof (cache_ok_new h s) as Hok.
  generalize dependent (NewCachedUserRep h s). unfold exec_ops.
  induction os as [|o os IH]; intros w Hok; [done|].
  simpl in Hos. apply andb_prop in Hos as [Ho Hos]. simpl. apply (IH Hos).
  destruct o; simpl in Ho |- *; try done.
  - by apply cache_ok_Create.
  - by apply cache_ok_List.
  - by apply cache_ok_GetByEmail.
Qed.

Lemma Create_dom (user : User) (w : World St) :
  dom (cache w) ⊆ dom (cache (CachedUserRep_Create user w).2).
Proof.
  unfold CachedUserRep_Create.
  destruct (rep_Create user (rep w)) as [[e|] s']; simpl; [done|].
  apply UserCache_Set_dom.
Qed.

Lemma GetByEmail_dom (email : string) (w : World St) :
  dom (cache w) ⊆ dom (cache (CachedUserRep_GetByEmail email w).2).
Proof.
  unfold CachedUserRep_GetByEmail.
  destruct (UserCache_Get email (cache w)) as [p [|]]; [done|].
  destruct (rep_GetByEmail email (rep w)) as [[[u|] e] s']; simpl;
    repeat case_decide; simpl; try done; apply UserCache_Set_dom.
Qed.

Lemma List_dom (lv : LoopVar) (ρ : list nat) (w : World St) :
  dom (cache w) ⊆ dom (cache (CachedUserRep_List lv ρ w).2).
Proof.
  unfold CachedUserRep_List.
  destruct (UserCache_List _ _ _) as [cachedUsers|]; [|done].
  case_decide; [done|].
  destruct (rep_List (rep w)) as [[us [e|]] s']; [done|].
  pose proof (populate_dom lv (slice_elems us) (heap w) (cache w)) as Hp.
  by destruct (populate _ _ _ _) as [h' c'].
Qed.

Lemma exec_op_dom (o : Op) (w : World St) :
  dom (cache w) ⊆ dom (cache (exec_op o w)).
Proof.
  destruct o; simpl; try done.
  - apply UserCache_Set_dom.
  - apply Create_dom.
  - apply List_dom.
  - apply GetByEmail_dom.
Qed.

(** C8. No operation of the cache or of the proxy removes an entry: over
    any sequence of operations, and so over each single one, every email
    the cache holds an entry for before still has an entry afterwards. *)
Theorem cache_never_shrinks (os : list Op) (w : World St) (email : string) :
  is_Some (cache w !! email) →
  is_Some (cache (exec_ops os w) !! email).
Proof.
  rewrite <- !elem_of_dom. revert w.
  induction os as [|o os IH]; intros w Hin; [done|].
  apply (IH (exec_op o w)). by apply exec_op_dom.
Qed.

(** C3. For a cache whose entries all point to allocated records, [List]
    answers from the cache alone, without a repository call, exactly when
    the cache is not empty.  With an empty cache it makes one repository
    call, so two [List] calls against a repository that lists no users
    make two; with a non-empty cache any number of [List] calls leave the
    world, and with it the log of repository calls, as it was. *)
Theorem List_from_cache_iff_nonempty (lv : LoopVar) (w : World St) :
  cache_ok w →
  (∀ ρ, served_from_cache lv ρ w ↔ cache w ≠ ∅) ∧
  (∀ ρ, cache w = ∅ → calls (CachedUserRep_List lv ρ w).2 = calls w ++ [CallList]) ∧
  (∀ ρ1 ρ2 us1 s1 us2 s2,
     cache w = ∅ →
     rep_List (rep w) = (us1, None, s1) → slice_elems us1 = [] →
     rep_List s1 = (us2, None, s2) → slice_elems us2 = [] →
     calls (exec_ops [OpList lv ρ1; OpList lv ρ2] w) = calls w ++ [CallList; CallList]) ∧
  (∀ ρs, cache w ≠ ∅ →
     exec_ops (OpList lv <$> ρs) w = w ∧
     Forall (λ ρ, served_from_cache lv ρ w) ρs).
Proof.
  intros Hok.
  assert (∀ ρ, cache w = ∅ →
            calls (CachedUserRep_List lv ρ w).2 = calls w ++ [CallList]) as Hcold.
  { intros ρ Hc. rewrite (List_cold lv ρ w Hc).
    destruct (rep_List (rep w)) as [[us [e|]] s']; [done|].
    by destruct (populate _ _ _ _). }
  assert (∀ us, slice_elems us = [] → ∀ h c, populate lv (slice_elems us) h c = (h, c)) as Hpop.
  { intros us -> h c. by destruct lv. }
  split_and!; [|done|..].
  - intros ρ. split; [|by apply List_warm].
    intros (us & Hl & _) Hc. specialize (Hcold ρ Hc).
    rewrite Hl in Hcold. simpl in Hcold.
    apply (f_equal length) in Hcold. rewrite length_app in Hcold. simpl in Hcold. lia.
  - intros ρ1 ρ2 us1 s1 us2 s2 Hc Hr1 He1 Hr2 He2.
    unfold exec_ops. simpl.
    rewrite (List_cold lv ρ1 w Hc), Hr1. simpl.
    rewrite (Hpop us1 He1). simpl.
    rewrite List_cold by done. simpl. rewrite Hr2. simpl.
    rewrite (Hpop us2 He2). simpl. by rewrite <- app_assoc.
  - intros ρs Hne.
    assert (∀ ρ, served_from_cache lv ρ w) as Hs by (intros ρ; by apply List_warm).
    split; [|by apply Forall_forall].
    unfold exec_ops. induction ρs as [|ρ ρs IH]; [done|]. simpl.
    destruct (Hs ρ) as (us & -> & _). simpl. apply IH.
Qed.

End ProxyInvariants.

(** ** What the loop variable decides *)

(** C1 fails on a listing that carries one email twice, whichever way the
    loop variable is compiled: the entry under the shared email ends up
    pointing to the later record. *)
Lemma List_duplicate_email_not_cached :
  ¬ List_caches_every_record (H := UserRep_UserRepository) PerIteration []
      (NewCachedUserRep [] (mkMemDB [alice; alicia] false)) ∧
  ¬ List_caches_every_record (H := UserRep_UserRepository) PerLoop []
      (NewCachedUserRep [] (mkMemDB [alice; alicia] false)).
Proof.
  split; intros Hclaim;
    destruct (Hclaim eq_refl (Some [alice; alicia]) _ eq_refl) as [_ Hall];
    (destruct (Hall alice) as (p & Hget & Hderef); [left|]);
    vm_compute in Hget; simplify_eq; vm_compute in Hderef; discriminate.
Qed.


(** ** The lock discipline *)

Module LockingFacts.
Import Locking.

Lemma whole_status (t : list instr) : whole t → status_of t = Outside.
Proof. destruct 1 as [|[] t _]; done. Qed.

Lemma wf_step (i : instr) (t : list instr) :
  wf (i :: t) →
  wf (rest i t) ∧ status_of (rest i t) = next_status i (status_of (i :: t)).
Proof.
  inversion 1 as [t0 Hw|email user t0 Hw|c t0 Hw Heq|c t0 Hw Heq]; subst.
  - inversion Hw as [|c t0 Hw' Heq]; subst.
    destruct c; simpl in Heq; simplify_eq; simpl.
    + split; [by apply wf_announced|done].
    + split; [apply (wf_locked (CGet email)); done|done].
    + split; [apply (wf_locked CList); done|done].
  - split; [apply (wf_locked (CSet email user)); done|done].
  - destruct c; simpl in Heq; simplify_eq.
    + split; [apply (wf_unlocking (CSet email user)); done|done].
    + split; [apply (wf_unlocking (CGet email)); done|done].
    + split; [apply (wf_unlocking CList); done|done].
  - destruct c; simpl in Heq; simplify_eq;
      (split; [by apply wf_whole|by apply whole_status]).
Qed.

Lemma whole_concat (calls : list call) : whole (concat (map body calls)).
Proof. induction calls; simpl; [constructor|by constructor]. Qed.

Lemma count_status_insert (s : status) (ts : list (list instr)) (k : nat) (t0 t : list instr) :
  ts !! k = Some t0 →
  count_status s (<[k := t]> ts) + (if decide (status_of t0 = s) then 1 else 0) =
  count_status s ts + (if decide (status_of t = s) then 1 else 0).
Proof.
  unfold count_status. revert k.
  induction ts as [|t1 ts IH]; intros [|k] Hk; simplify_eq/=.
  - rewrite !filter_cons. repeat case_decide; simpl; lia.
  - rewrite !filter_cons. specialize (IH k Hk).
    repeat case_decide; simpl; lia.
Qed.

Lemma count_status_lookup (s : status) (ts : list (list instr)) (k : nat) (t : list instr) :
  ts !! k = Some t → status_of t = s → 0 < count_status s ts.
Proof.
  intros Hk Hs. unfold count_status. apply list_elem_of_lookup_2 in Hk.
  assert (t ∈ filter (λ t, status_of t = s) ts) as Hin by by apply list_elem_of_filter.
  destruct (filter _ ts); [by apply elem_of_nil in Hin|simpl; lia].
Qed.

Lemma count_status_two (s : status) (ts : list (list instr)) (i j : nat) (ti tj : list instr) :
  s ≠ Outside → i ≠ j →
  ts !! i = Some ti → ts !! j = Some tj →
  status_of ti = s → status_of tj = s →
  1 < count_status s ts.
Proof.
  intros Hs Hij Hi Hj Hsi Hsj.
  pose proof (count_status_insert s ts i ti [] Hi) as Hc.
  rewrite decide_True in Hc by done. rewrite decide_False in Hc by done.
  assert (0 < count_status s (<[i := []]> ts)); [|lia].
  apply (count_status_lookup s _ j tj); [|done].
  by rewrite list_lookup_insert_ne.
Qed.

Lemma count_status_exists (s : status) (ts : list (list instr)) :
  0 < count_status s ts → ∃ k t, ts !! k = Some t ∧ status_of t = s.
Proof.
  unfold count_status. intros Hc.
  destruct (filter _ ts) as [|t l] eqn:Hf; [simpl in Hc; lia|].
  assert (t ∈ filter (λ t, status_of t = s) ts) as Hin by (rewrite Hf; left).
  apply list_elem_of_filter in Hin as [Hs Hin].
  apply list_elem_of_lookup_1 in Hin as [k Hk]. eauto.
Qed.

Lemma count_status_whole (s : status) (ts : list (list instr)) :
  s ≠ Outside → Forall whole ts → count_status s ts = 0.
Proof.
  intros Hs Hw. unfold count_status. induction Hw as [|t ts Ht _ IH]; [done|].
  rewrite filter_cons, decide_False; [done|]. by rewrite whole_status.
Qed.

Lemma mutex_inv_start (c : UserCache) (cs : list (list call)) : mutex_inv (start c cs).
Proof.
  unfold mutex_inv, start. simpl.
  assert (Forall whole (map (λ calls, concat (map body calls)) cs)) as Hw.
  { apply Forall_forall. intros t [calls [-> _]]%list_elem_of_fmap. apply whole_concat. }
  split_and!; [|by apply count_status_whole..|done].
  eapply Forall_impl; [done|]. intros t. apply wf_whole.
Qed.

Lemma mutex_inv_step (k : nat) (cfg cfg' : config) :
  mutex_inv cfg → step k cfg = Some cfg' → mutex_inv cfg'.
Proof.
  intros (Hwf & Hw & Ha & Hr & Hx). unfold step.
  destruct (threads cfg !! k) as [[|i t]|] eqn:Hk; [done| |done].
  destruct (enabled (mutex cfg) i) eqn:Hen; [|done].
  destruct (exec i (mutex cfg) (users cfg)) as [m c] eqn:Hex.
  intros [= <-]. unfold mutex_inv. simpl.
  assert (wf (i :: t)) as Hit by (eapply Forall_lookup_1; done).
  apply wf_step in Hit as [Ht Hst].
  pose proof (count_status_insert Writing _ k _ (rest i t) Hk) as Hcw.
  pose proof (count_status_insert Announced _ k _ (rest i t) Hk) as Hca.
  pose proof (count_status_insert Reading _ k _ (rest i t) Hk) as Hcr.
  rewrite Hst in Hcw, Hca, Hcr.
  destruct (mutex cfg) as [wr pe rd]. simpl in *.
  split; [by apply Forall_insert|].
  unfold b2n in *.
  destruct i; simpl in *; simplify_eq; simpl in *;
    repeat case_decide; simplify_eq.
  all: try (apply andb_prop in Hen as [Hen1 Hen2];
            apply negb_true_iff in Hen1, Hen2; subst; simpl in * ).
  all: try case_bool_decide; simplify_eq.
  all: try (split_and!; [lia..|done]).
  all: try (split_and!; [lia..|intros; split; [lia|done]]).
  all: destruct wr, pe; simpl in *;
    try (destruct Hx as [? ?]; [done|]); simplify_eq; try lia;
    (split_and!; [lia..|intros; split; [lia|done]]).
Qed.

Lemma mutex_inv_run (sched : list nat) (cfg cfg' : config) :
  mutex_inv cfg → run sched cfg = Some cfg' → mutex_inv cfg'.
Proof.
  revert cfg. induction sched as [|k sched IH]; intros cfg Hinv; simpl.
  - by intros [= <-].
  - destruct (step k cfg) as [cfg1|] eqn:Hs; [|done].
    apply IH. by apply (mutex_inv_step k cfg).
Qed.

(** [Set] run on its own is the sequential [UserCache_Set], and leaves the
    lock free. *)
Lemma Set_alone (c : UserCache) (email : string) (user : ptr) :
  run [0; 0; 0; 0] (start c [[CSet email user]]) =
  Some (mkConfig (mkRWMutex false false 0) (UserCache_Set email user c) [[]]).
Proof. reflexivity. Qed.

(** Two readers inside [Get] at the same time. *)
Lemma readers_share (c : UserCache) (e1 e2 : string) :
  ∃ cfg, run [0; 1] (start c [[CGet e1]; [CGet e2]]) = Some cfg ∧
         readers (mutex cfg) = 2 ∧
         status_of <$> threads cfg = [Reading; Reading].
Proof. eexists. split; [reflexivity|done]. Qed.

(** C9 fails for two [Set] calls with distinct emails: once the first has
    taken the lock, the second is blocked. *)
Lemma Set_blocks_Set :
  "alice@example.com" ≠ "bob@example.com" ∧
  ¬ sets_never_block "alice@example.com" (Addr 0) "bob@example.com" (Addr 1).
Proof.
  split; [done|]. intros Hclaim.
  destruct (Hclaim [0; 0] _ eq_refl) as [_ Hb]. vm_compute in Hb. discriminate.
Qed.

(** C9, as the code has it.  In every state that threads calling [Set],
    [Get] and [List] on one cache can reach: while one thread is inside
    [Set], every other thread is outside its critical section, and is
    blocked if its next step is [Lock] or [RLock], whatever the emails;
    a thread about to [Lock] or [RLock] is blocked exactly while some
    other thread has a [Set] under way, so readers never hold back
    readers; and a [Set] that has announced itself is blocked exactly
    while some other thread is inside [Get] or [List]. *)
Theorem writes_exclusive_reads_shared
    (c : UserCache) (cs : list (list call)) (sched : list nat) (cfg : config) :
  run sched (start c cs) = Some cfg →
  (∀ i j ti tj, i ≠ j →
     threads cfg !! i = Some ti → threads cfg !! j = Some tj →
     status_of ti = Writing →
     status_of tj = Outside ∧
     (head tj = Some ILock ∨ head tj = Some IRLock → blocked cfg j = true)) ∧
  (∀ j tj, threads cfg !! j = Some tj →
     head tj = Some ILock ∨ head tj = Some IRLock →
     (blocked cfg j = true ↔
      ∃ i ti, i ≠ j ∧ threads cfg !! i = Some ti ∧ setting ti)) ∧
  (∀ j tj, threads cfg !! j = Some tj → head tj = Some IDrain →
     (blocked cfg j = true ↔
      ∃ i ti, i ≠ j ∧ threads cfg !! i = Some ti ∧ status_of ti = Reading)).
Proof.
  intros Hrun.
  pose proof (mutex_inv_run _ _ _ (mutex_inv_start c cs) Hrun) as (Hwf & Hw & Ha & Hr & Hx).
  assert (∀ i ti, threads cfg !! i = Some ti → status_of ti = Writing →
                  writer (mutex cfg) = true) as Hwriting.
  { intros i ti Hi Hs. pose proof (count_status_lookup _ _ _ _ Hi Hs) as Hc.
    rewrite Hw in Hc. destruct (writer (mutex cfg)); [done|simpl in Hc; lia]. }
  assert (∀ i ti, threads cfg !! i = Some ti → status_of ti = Announced →
                  pending (mutex cfg) = true) as Hannounced.
  { intros i ti Hi Hs. pose proof (count_status_lookup _ _ _ _ Hi Hs) as Hc.
    rewrite Ha in Hc. destruct (pending (mutex cfg)); [done|simpl in Hc; lia]. }
  assert (∀ j tj, threads cfg !! j = Some tj →
            head tj = Some ILock ∨ head tj = Some IRLock →
            blocked cfg j = negb (negb (writer (mutex cfg)) && negb (pending (mutex cfg)))
            ∧ status_of tj = Outside) as Hblocked.
  { intros j tj Hj Hh. unfold blocked. rewrite Hj.
    destruct tj as [|i' tj]; destruct Hh as [[=]|[=]]; by subst. }
  split_and!.
  - intros i j ti tj Hij Hi Hj Hs.
    pose proof (Hwriting i ti Hi Hs) as Hwr. destruct (Hx Hwr) as [Hrd Hpe]. split.
    + destruct (status_of tj) eqn:Hsj; [done|..].
      * pose proof (Hannounced j tj Hj Hsj). congruence.
      * pose proof (count_status_lookup _ _ _ _ Hj Hsj) as Hc. lia.
      * assert (Writing ≠ Outside) as Hne by done.
        pose proof (count_status_two Writing _ i j ti tj Hne Hij Hi Hj Hs Hsj) as Hc.
        rewrite Hw, Hwr in Hc. simpl in Hc. lia.
    + intros Hh. destruct (Hblocked j tj Hj Hh) as [-> _]. by rewrite Hwr.
  - intros j tj Hj Hh. destruct (Hblocked j tj Hj Hh) as [-> Hout]. split.
    + intros Hb. apply negb_true_iff, andb_false_iff in Hb.
      assert (∃ s, (s = Announced ∨ s = Writing) ∧ 0 < count_status s (threads cfg))
        as (s & Hs & Hc).
      { destruct Hb as [Hb|Hb]; apply negb_false_iff in Hb.
        - exists Writing. rewrite Hw, Hb. split; [by right|simpl; lia].
        - exists Announced. rewrite Ha, Hb. split; [by left|simpl; lia]. }
      apply count_status_exists in Hc as (i & ti & Hi & Hsi).
      exists i, ti. split_and!; [|done|unfold setting; by rewrite Hsi].
      intros ->. rewrite Hj in Hi. simplify_eq. destruct Hs; congruence.
    + intros (i & ti & Hij & Hi & [Hs|Hs]).
      * by rewrite (Hannounced i ti Hi Hs), andb_false_r.
      * by rewrite (Hwriting i ti Hi Hs).
  - intros j tj Hj Hh. unfold blocked. rewrite Hj.
    destruct tj as [|i' tj]; simplify_eq/=. split.
    + intros Hb. apply negb_true_iff, bool_decide_eq_false in Hb.
      assert (0 < count_status Reading (threads cfg)) as Hc by (rewrite Hr; lia).
      apply count_status_exists in Hc as (i & ti & Hi & Hsi).
      exists i, ti. split_and!; [|done..].
      intros ->. rewrite Hj in Hi. by simplify_eq.
    + intros (i & ti & Hij & Hi & Hs).
      apply negb_true_iff, bool_decide_eq_false.
      pose proof (count_status_lookup _ _ _ _ Hi Hs) as Hc. lia.
Qed.

End LockingFacts.

(** ** The theorems at work on the in-memory database *)

Lemma List_cold_populates_witness :
  ∃ w', CachedUserRep_List PerIteration [] world_two
          = (Returned (Some [alice; bob], None), w') ∧
    ∀ u, u ∈ [alice; bob] →
      ∃ p u', UserCache_Get (Email u) (cache w') = (p, true) ∧
              deref (heap w') p = Some u' ∧
              last (filter (λ v, Email v = Email u) [alice; bob]) = Some u' ∧
              (NoDup (Email <$> [alice; bob]) → u' = u).
Proof.
  apply (List_cold_populates [] world_two (Some [alice; bob]) (mkMemDB [alice; bob] false));
    reflexivity.
Defined.

Lemma cache_holds_store_record_witness :
  (∃ w' p, CachedUserRep_Create alice world_empty = (None, w') ∧
           UserCache_Get (Email alice) (cache w') = (p, true) ∧
           deref (heap w') p = Some alice) ∧
  (∃ p w', CachedUserRep_GetByEmail "bob@example.com" world_two = (p, None, w') ∧
           UserCache_Get "bob@example.com" (cache w') = (p, true) ∧
           deref (heap w') p = Some bob).
Proof.
  split.
  - assert (CachedUserRep_Create alice world_empty
            = (None, (CachedUserRep_Create alice world_empty).2)) as Hcr by reflexivity.
    destruct (proj1 (cache_holds_store_record world_empty) alice _ Hcr)
      as (p & Hget & Hderef & _).
    eexists _, p. split; [reflexivity|]. split; [exact Hget|exact Hderef].
  - apply (proj2 (cache_holds_store_record world_two)
             "bob@example.com" bob (mkMemDB [alice; bob] false)); reflexivity.
Defined.

Lemma List_from_cache_iff_nonempty_witness :
  let w := (CachedUserRep_Create alice world_empty).2 in
  cache w ≠ ∅ ∧ served_from_cache PerIteration [0] w ∧
  exec_ops (OpList PerIteration <$> [[]; [0]; [1]]) w = w.
Proof.
  intros w.
  assert (cache_ok w) as Hok by apply cache_ok_Create, cache_ok_new.
  assert (cache w ≠ ∅) as Hne by (vm_compute; discriminate).
  destruct (List_from_cache_iff_nonempty PerIteration w Hok) as (Hiff & _ & _ & Hrep).
  split; [exact Hne|]. split.
  - apply Hiff, Hne.
  - apply (Hrep [[]; [0]; [1]] Hne).
Defined.

Lemma get_after_create_witness :
  ∃ w1 p, CachedUserRep_Create alice world_empty = (None, w1) ∧
          CachedUserRep_GetByEmail (Email alice) w1 = (p, None, w1) ∧
          deref (heap w1) p = Some alice.
Proof.
  assert (CachedUserRep_Create alice world_empty
          = (None, (CachedUserRep_Create alice world_empty).2)) as Hcr by reflexivity.
  destruct (get_after_create alice world_empty _ Hcr) as (p & Hget & Hderef).
  eexists _, p. split; [reflexivity|]. split; [exact Hget|exact Hderef].
Defined.

Lemma miss_then_populate_witness :
  ∃ p w1, CachedUserRep_GetByEmail "bob@example.com" world_two = (p, None, w1) ∧
          calls w1 = calls world_two ++ [CallGetByEmail "bob@example.com"] ∧
          deref (heap w1) p = Some bob ∧
          CachedUserRep_GetByEmail "bob@example.com" w1 = (p, None, w1).
Proof.
  apply (miss_then_populate "bob@example.com" bob (mkMemDB [alice; bob] false) world_two);
    reflexivity.
Defined.

Lemma get_absent_returns_nil_witness :
  (CachedUserRep_GetByEmail "carol@example.com" world_two).1 = (Nil, None) ∧
  cache (CachedUserRep_GetByEmail "carol@example.com" world_two).2 = cache world_two.
Proof.
  apply (proj2 (get_absent_returns_nil "carol@example.com" world_two world_two)
           eq_refl zero_User (mkMemDB [alice; bob] false)).
  reflexivity.
Defined.

Lemma create_error_passthrough_witness :
  (CachedUserRep_Create bob world_closed).1 = Some errClosed ∧
  cache (CachedUserRep_Create bob world_closed).2 = cache world_closed ∧
  heap (CachedUserRep_Create bob world_closed).2 = heap world_closed.
Proof.
  apply (create_error_passthrough bob errClosed (mkMemDB [alice] true) world_closed).
  reflexivity.
Defined.

Lemma cache_never_shrinks_witness :
  let w := (CachedUserRep_Create alice world_empty).2 in
  is_Some (cache (exec_ops [OpCacheSet "alice@example.com" Nil; OpCreate bob;
                            OpCacheList []; OpList PerLoop [1]; OpCacheGet "x";
                            OpGetByEmail "carol@example.com"] w)
             !! "alice@example.com").
Proof.
  intros w. apply (cache_never_shrinks _ w "alice@example.com").
  exists (Addr 0). reflexivity.
Defined.

Lemma List_cold_error_witness :
  (CachedUserRep_List PerIteration [] world_closed).1 = Returned (None, Some errClosed) ∧
  cache (CachedUserRep_List PerIteration [] world_closed).2 = ∅ ∧
  heap (CachedUserRep_List PerIteration [] world_closed).2 = heap world_closed.
Proof.
  apply (proj1 (List_cold_error (D := MemDB) PerIteration [] world_closed)
           eq_refl None errClosed (mkMemDB [alice] true)).
  reflexivity.
Defined.

Lemma writes_exclusive_reads_shared_witness :
  let cs := [[Locking.CSet "alice@example.com" (Addr 0)];
             [Locking.CSet "bob@example.com" (Addr 1)];
             [Locking.CGet "alice@example.com"]] in
  ∃ cfg,
    Locking.run [0; 0] (Locking.start ∅ cs) = Some cfg ∧
    Locking.blocked cfg 1 = true ∧ Locking.blocked cfg 2 = true.
Proof.
  intros cs.
  destruct (Locking.run [0; 0] (Locking.start ∅ cs)) as [cfg|] eqn:Hrun;
    [|vm_compute in Hrun; discriminate].
  exists cfg. split; [reflexivity|].
  destruct (LockingFacts.writes_exclusive_reads_shared ∅ cs [0; 0] cfg Hrun) as (Hex & _ & _).
  vm_compute in Hrun. injection Hrun as <-.
  split.
  - eapply (Hex 0 1); [discriminate|reflexivity..|left; reflexivity].
  - eapply (Hex 0 2); [discriminate|reflexivity..|right; reflexivity].
Defined.

(** * Further properties of the code *)

(** ** The cache on its own *)

(** [Set] then [Get]: the entry just written is found, entries under other
    emails are what they were, and a second [Set] under the same email
    replaces the first; an email never written is answered by a nil
    pointer and [false]. *)
Theorem Set_Get_roundtrip (c : UserCache) (e e' : string) (p q : ptr) :
  UserCache_Get e (UserCache_Set e p c) = (p, true) ∧
  (e' ≠ e → UserCache_Get e' (UserCache_Set e p c) = UserCache_Get e' c) ∧
  UserCache_Set e q (UserCache_Set e p c) = UserCache_Set e q c ∧
  UserCache_Get e NewUserCache = (Nil, false).
Proof.
  split_and!.
  - apply UserCache_Get_Set.
  - intros Hne. unfold UserCache_Get, UserCache_Set. by rewrite lookup_insert_ne.
  - unfold UserCache_Set. apply insert_insert_eq.
  - done.
Qed.

Lemma fmap_Some_mapM {A B} (f : A → option B) (l : list A) (k : list B) :
  f <$> l = Some <$> k → mapM f l = Some k.
Proof.
  intros Hf. apply mapM_Some. revert k Hf.
  induction l as [|x l IH]; intros [|y k] Hf; simplify_eq/=; constructor; auto.
Qed.

(** [List] on a cache whose entries all point to allocated records returns
    as many records as the map has entries, the records the entries point
    to, in some order; and each order of these records is one that [List]
    may return. *)
Theorem UserCache_List_any_order (c : UserCache) (h : Heap) :
  map_Forall (λ _ p, valid h p) c →
  (∀ ρ, ∃ us, UserCache_List ρ c h = Some us ∧ length us = size c ∧
              Some <$> us ≡ₚ (λ kv, deref h kv.2) <$> map_to_list c) ∧
  (∀ us, Some <$> us ≡ₚ (λ kv, deref h kv.2) <$> map_to_list c →
         ∃ ρ, UserCache_List ρ c h = Some us).
Proof.
  intros Hok. split.
  - intros ρ. destruct (UserCache_List_Some ρ c h) as (us & Hus & Hperm).
    { intros email p Hp. apply deref_valid. by apply (Hok email). }
    exists us. split_and!; [done| |done]. by apply (UserCache_List_length ρ c h).
  - intros us Hperm.
    apply Permutation_map_inv in Hperm as (l' & Heq & Hl').
    destruct (range_order_complete (map_to_list c) l' Hl') as [ρ Hρ].
    exists ρ. unfold UserCache_List. rewrite Hρ. by apply fmap_Some_mapM.
Qed.

(** [Set] accepts a nil pointer, and from then on [List] panics: the cache's
    own [List], and with it the proxy's. *)
Theorem List_panics_on_nil_entry {St : Type} `{UserRepository St}
    (lv : LoopVar) (ρ : list nat) (e : string) (w : World St) :
  UserCache_List ρ (UserCache_Set e Nil (cache w)) (heap w) = None ∧
  CachedUserRep_List lv ρ (exec_op (OpCacheSet e Nil) w) = (Panicked, exec_op (OpCacheSet e Nil) w).
Proof.
  assert (UserCache_List ρ (UserCache_Set e Nil (cache w)) (heap w) = None) as Hn.
  { unfold UserCache_List. apply mapM_None, Exists_exists.
    exists (e, Nil). split; [|done].
    rewrite range_order_perm. apply elem_of_map_to_list.
    unfold UserCache_Set. apply lookup_insert_eq. }
  split; [done|]. unfold CachedUserRep_List. simpl. by rewrite Hn.
Qed.

(** ** More on the proxy *)

Section ProxyMore.
Context {St : Type} `{UserRepository St}.

Lemma GetByEmail_miss_calls (e : string) (w : World St) :
  cache w !! e = None →
  calls (CachedUserRep_GetByEmail e w).2 = calls w ++ [CallGetByEmail e] ∧
  rep (CachedUserRep_GetByEmail e w).2 = (rep_GetByEmail e (rep w)).2.
Proof.
  intros Hc. unfold CachedUserRep_GetByEmail, UserCache_Get. rewrite Hc.
  destruct (rep_GetByEmail e (rep w)) as [[[u|] e0] s']; simpl;
    repeat case_decide; done.
Qed.

Lemma GetByEmail_failed (e : string) (w : World St) (r : option User) (e0 : error) (s' : St) :
  cache w !! e = None →
  rep_GetByEmail e (rep w) = (r, Some e0, s') →
  e0 ≠ ErrNoRows →
  CachedUserRep_GetByEmail e w =
    (match r with Some _ => Addr (length (heap w)) | None => Nil end, Some e0,
     mkWorld (heap w ++ match r with Some u => [u] | None => [] end) (cache w) s'
             (calls w ++ [CallGetByEmail e])).
Proof.
  intros Hmiss Hr Hne.
  unfold CachedUserRep_GetByEmail, UserCache_Get. rewrite Hmiss, Hr.
  destruct e0 as [|msg]; [done|].
  destruct r as [u|]; simpl; [done|]. by rewrite app_nil_r.
Qed.

(** On a cache miss, an error of the repository other than
    [sql.ErrNoRows] comes back unchanged, together with the pointer the
    repository returned; the cache is untouched and the repository has
    been called once. *)
Theorem GetByEmail_error_passthrough
    (e : string) (w : World St) (r : option User) (e0 : error) (s' : St) :
  (UserCache_Get e (cache w)).2 = false →
  rep_GetByEmail e (rep w) = (r, Some e0, s') →
  e0 ≠ ErrNoRows →
  ∃ p w', CachedUserRep_GetByEmail e w = (p, Some e0, w') ∧
          deref (heap w') p = r ∧
          cache w' = cache w ∧
          rep w' = s' ∧
          calls w' = calls w ++ [CallGetByEmail e].
Proof.
  intros Hmiss Hr Hne. apply UserCache_Get_None in Hmiss.
  rewrite (GetByEmail_failed e w r e0 s' Hmiss Hr Hne).
  eexists _, _. split; [done|]. simpl. split_and!; try done.
  destruct r as [u|]; [apply (deref_alloc (heap w) u)|done].
Qed.

(** A lookup the repository answers with not-found is not remembered: the
    email is still absent from the cache, and the same lookup made again
    calls the repository again. *)
Theorem not_found_is_not_cached
    (e : string) (w : World St) (r : option User) (e0 : err) (s' : St) :
  (UserCache_Get e (cache w)).2 = false →
  rep_GetByEmail e (rep w) = (r, e0, s') →
  not_found r e0 →
  (UserCache_Get e (cache (CachedUserRep_GetByEmail e w).2)).2 = false ∧
  calls (CachedUserRep_GetByEmail e (CachedUserRep_GetByEmail e w).2).2
    = calls w ++ [CallGetByEmail e; CallGetByEmail e].
Proof.
  intros Hmiss Hr Hnf. apply UserCache_Get_None in Hmiss.
  destruct (GetByEmail_not_found e w r e0 s' Hmiss Hr Hnf) as (_ & Hc & Hl).
  assert (cache (CachedUserRep_GetByEmail e w).2 !! e = None) as Hmiss'
    by by rewrite Hc.
  split; [by apply UserCache_Get_None|].
  destruct (GetByEmail_miss_calls e _ Hmiss') as [-> _].
  rewrite Hl. by rewrite <- app_assoc.
Qed.

(** Once the cache holds a single record, [List] returns that record and
    nothing else, whatever the repository holds: after a successful
    [Create(r)] on an empty cache, every [List] returns [[r]] with a nil
    error and leaves the world, and so the log of repository calls, as it
    was. *)
Theorem List_after_first_Create (lv : LoopVar) (ρ : list nat) (r : User) (w w1 : World St) :
  cache w = ∅ →
  CachedUserRep_Create r w = (None, w1) →
  CachedUserRep_List lv ρ w1 = (Returned (Some [r], None), w1).
Proof.
  intros Hc Hcr. destruct (Create_inv _ _ _ Hcr) as [s' Hs].
  rewrite (Create_ok _ _ _ Hs) in Hcr. simplify_eq.
  unfold CachedUserRep_List, UserCache_List. simpl. rewrite Hc.
  rewrite insert_empty, map_to_list_singleton. simpl.
  unfold insert_at. rewrite take_nil, drop_nil. simpl.
  rewrite lookup_app_r, Nat.sub_diag by lia. simpl. done.
Qed.

End ProxyMore.

(** ** What the proxy keeps and never does *)

Lemma populate_heap_app (lv : LoopVar) (us : list User) (h : Heap) (c : UserCache) :
  ∃ h', (populate lv us h c).1 = h ++ h'.
Proof.
  destruct lv; simpl.
  - exists us. apply populate_per_iteration_heap.
  - unfold populate_per_loop. destruct us as [|u us]; [exists []; by rewrite app_nil_r|].
    rewrite populate_shared_heap.
    destruct (last (u :: us)) as [ulast|] eqn:Hlast.
    + exists [ulast]. rewrite insert_app_r_alt, Nat.sub_diag by lia. done.
    + by exists [zero_User].
Qed.

Lemma populate_dom_emails (lv : LoopVar) (us : list User) (h : Heap) (c : UserCache) :
  dom (populate lv us h c).2 = dom c ∪ list_to_set (Email <$> us).
Proof.
  apply set_eq. intros e.
  rewrite elem_of_union, elem_of_list_to_set, !elem_of_dom.
  destruct lv; cbn [populate].
  - revert h c. induction us as [|u us IH]; intros h c.
    + simpl. rewrite elem_of_nil. tauto.
    + cbn [populate_per_iteration alloc]. rewrite IH, fmap_cons, elem_of_cons.
      unfold UserCache_Set.
      destruct (decide (e = Email u)) as [->|Hne].
      * rewrite lookup_insert_eq. split; [auto|]. intros _. left. by eexists.
      * rewrite lookup_insert_ne by done. tauto.
  - unfold populate_per_loop. destruct us as [|u us].
    + simpl. rewrite elem_of_nil. tauto.
    + rewrite populate_shared_lookup.
      destruct (decide (e ∈ Email <$> u :: us)) as [Hin|Hnin].
      * split; [auto|]. intros _. by eexists.
      * tauto.
Qed.

Section ProxyKeeps.
Context {St : Type} `{UserRepository St}.

(** Whatever calls are made on a proxy from its creation on, its [List]
    does not panic. *)
Theorem List_never_panics (os : list Op) (h : Heap) (s : St) (lv : LoopVar) (ρ : list nat) :
  forallb proxy_op os = true →
  (CachedUserRep_List lv ρ (exec_ops os (NewCachedUserRep h s))).1 ≠ Panicked.
Proof.
  intros Hos. pose proof (cache_ok_reachable os h s Hos) as Hok.
  unfold CachedUserRep_List.
  destruct (UserCache_List_Some ρ _ _ Hok) as (us & -> & _).
  case_decide; [done|].
  destruct (rep_List _) as [[us' [e|]] s']; [done|].
  by destruct (populate _ _ _ _).
Qed.

(** No operation calls the repository more than once, and none rewrites
    the log of earlier calls; the operations of the cache call it not at
    all. *)
Theorem at_most_one_repository_call (o : Op) (w : World St) :
  ∃ l, calls (exec_op o w) = calls w ++ l ∧ length l ≤ 1 ∧
       (proxy_op o = false → l = []).
Proof.
  assert (∀ w' : World St, calls w' = calls w →
            ∃ l, calls w' = calls w ++ l ∧ length l ≤ 1 ∧ (proxy_op o = false → l = []))
    as Hnone.
  { intros w' ->. exists []. rewrite app_nil_r. split_and!; [done|simpl; lia|done]. }
  assert (∀ (w' : World St) k, proxy_op o = true → calls w' = calls w ++ [k] →
            ∃ l, calls w' = calls w ++ l ∧ length l ≤ 1 ∧ (proxy_op o = false → l = []))
    as Hone.
  { intros w' k Hp ->. exists [k]. split_and!; [done|simpl; lia|congruence]. }
  destruct o as [e|e p|ρ|u|lv ρ|e]; simpl; try by apply Hnone.
  - apply (Hone _ (CallCreate u)); [done|]. unfold CachedUserRep_Create.
    by destruct (rep_Create u (rep w)) as [[e|] s'].
  - unfold CachedUserRep_List.
    destruct (UserCache_List _ _ _) as [cachedUsers|]; [|by apply Hnone].
    case_decide; [by apply Hnone|].
    apply (Hone _ CallList); [done|].
    destruct (rep_List (rep w)) as [[us [e|]] s']; [done|].
    by destruct (populate _ _ _ _).
  - unfold CachedUserRep_GetByEmail.
    destruct (UserCache_Get e (cache w)) as [p [|]]; [by apply Hnone|].
    apply (Hone _ (CallGetByEmail e)); [done|].
    destruct (rep_GetByEmail e (rep w)) as [[[u|] e0] s']; simpl;
      repeat case_decide; done.
Qed.

Lemma exec_op_heap (o : Op) (w : World St) :
  ∃ h', heap (exec_op o w) = heap w ++ h'.
Proof.
  destruct o as [e|e p|ρ|u|lv ρ|e]; simpl;
    try (exists []; by rewrite app_nil_r).
  - unfold CachedUserRep_Create.
    destruct (rep_Create u (rep w)) as [[e|] s']; simpl;
      [exists []; by rewrite app_nil_r|by exists [u]].
  - unfold CachedUserRep_List.
    destruct (UserCache_List _ _ _) as [cachedUsers|];
      [|exists []; by rewrite app_nil_r].
    case_decide; [exists []; by rewrite app_nil_r|].
    destruct (rep_List (rep w)) as [[us [e|]] s']; simpl;
      [exists []; by rewrite app_nil_r|].
    pose proof (populate_heap_app lv (slice_elems us) (heap w) (cache w)) as Hp.
    by destruct (populate _ _ _ _).
  - unfold CachedUserRep_GetByEmail.
    destruct (UserCache_Get e (cache w)) as [p [|]];
      [exists []; by rewrite app_nil_r|].
    destruct (rep_GetByEmail e (rep w)) as [[[u|] e0] s']; simpl;
      repeat case_decide; simpl;
      first [by exists [u] | exists []; by rewrite app_nil_r].
Qed.

(** A record that a pointer reaches is never modified: whatever operations
    follow, with the loop variable compiled either way, the pointer still
    reaches an equal record. *)
Theorem records_are_never_modified (os : list Op) (w : World St) (p : ptr) (u : User) :
  deref (heap w) p = Some u →
  deref (heap (exec_ops os w)) p = Some u.
Proof.
  revert w. unfold exec_ops.
  induction os as [|o os IH]; intros w Hp; [done|].
  simpl. apply IH. destruct (exec_op_heap o w) as [h' ->].
  destruct p as [|l]; [done|]. simpl in *. by apply lookup_app_l_Some.
Qed.

(** A cold [List] that succeeds caches the emails of the listing and no
    other. *)
Theorem List_cold_caches_listed_emails
    (lv : LoopVar) (ρ : list nat) (w : World St) (us : slice) (s' : St) :
  cache w = ∅ →
  rep_List (rep w) = (us, None, s') →
  dom (cache (CachedUserRep_List lv ρ w).2) = list_to_set (Email <$> slice_elems us).
Proof.
  intros Hc Hr. rewrite (List_cold lv ρ w Hc), Hr.
  pose proof (populate_dom_emails lv (slice_elems us) (heap w) (cache w)) as Hd.
  destruct (populate _ _ _ _) as [h' c']. simpl in *.
  rewrite Hd, Hc, dom_empty_L. apply union_empty_l_L.
Qed.

End ProxyKeeps.

(** ** More on the SQL repository *)

Lemma scan_rows_all (rows : list (User * err)) (users : list User) :
  Forall (λ r, r.2 = None) rows →
  scan_rows rows users = (Some (users ++ rows.*1), None).
Proof.
  intros Hok. revert users.
  induction Hok as [|[u e] rows He _ IH]; intros users; simpl in *.
  - by rewrite app_nil_r.
  - subst e. rewrite IH. by rewrite <- app_assoc.
Qed.

Lemma scan_rows_first_error
    (pre post : list (User * err)) (u : User) (e : error) (users : list User) :
  Forall (λ r, r.2 = None) pre →
  scan_rows (pre ++ (u, Some e) :: post) users = (None, Some e).
Proof.
  intros Hok. revert users.
  induction Hok as [|[u' e'] pre He _ IH]; intros users; simpl in *; [done|].
  subst e'. apply IH.
Qed.

(** When the query succeeds and every row scans, [UserRep.List] returns
    all the rows, in the order of the result set, in a slice that is not
    nil even for an empty table. *)
Theorem UserRep_List_all_rows {D : Type} `{SqlDB D}
    (db db' : D) (rows : list (User * err)) :
  db_QueryAll db = (rows, None, db') →
  Forall (λ r, r.2 = None) rows →
  UserRep_List db = (Some rows.*1, None, db').
Proof.
  intros Hq Hok. unfold UserRep_List. rewrite Hq.
  by rewrite (scan_rows_all rows [] Hok).
Qed.

(** [UserRep.List] gives up at the first failure: a failed query, or the
    first row that does not scan, yields a nil slice and that error, and
    the rows scanned before it are dropped. *)
Theorem UserRep_List_first_failure {D : Type} `{SqlDB D} (db db' : D) (e : error) :
  (∀ rows, db_QueryAll db = (rows, Some e, db') →
     UserRep_List db = (None, Some e, db')) ∧
  (∀ pre u post, db_QueryAll db = (pre ++ (u, Some e) :: post, None, db') →
     Forall (λ r, r.2 = None) pre →
     UserRep_List db = (None, Some e, db')).
Proof.
  split.
  - intros rows Hq. unfold UserRep_List. by rewrite Hq.
  - intros pre u post Hq Hok. unfold UserRep_List. rewrite Hq.
    by rewrite (scan_rows_first_error pre post u e [] Hok).
Qed.

(** When [row.Scan] fails with an error other than [sql.ErrNoRows], the
    proxy over [UserRep] returns that error together with a pointer that
    is not nil, to whatever the scan left in [user]; nothing is cached. *)
Theorem GetByEmail_scan_failure {D : Type} `{SqlDB D}
    (email : string) (w : World D) (u : User) (e : error) (db' : D) :
  (UserCache_Get email (cache w)).2 = false →
  db_QueryRowScan email (rep w) = (u, Some e, db') →
  e ≠ ErrNoRows →
  ∃ p w', CachedUserRep_GetByEmail (H := UserRep_UserRepository) email w = (p, Some e, w') ∧
          p ≠ Nil ∧ deref (heap w') p = Some u ∧ cache w' = cache w.
Proof.
  intros Hmiss Hq Hne.
  assert (rep_GetByEmail (UserRepository := UserRep_UserRepository) email (rep w)
          = (Some u, Some e, db')) as Hr.
  { simpl. unfold UserRep_GetByEmail. rewrite Hq.
    rewrite decide_False by congruence. done. }
  apply UserCache_Get_None in Hmiss.
  rewrite (GetByEmail_failed (H := UserRep_UserRepository)
             email w (Some u) e db' Hmiss Hr Hne).
  eexists _, _. split; [done|]. simpl. split_and!; [done| |done].
  apply (deref_alloc (heap w) u).
Qed.

(** ** The service *)

Section Service.
Context {St : Type} `{UserRepository St}.

Lemma UserServ_Create_minor (user : User) (w : World St) :
  (Age user < 18)%Z →
  UserServ_Create user w = (Some errUnderage, w).
Proof. intros Hage. unfold UserServ_Create. by rewrite decide_True. Qed.

Lemma UserServ_Create_cached (user : User) (w : World St) (l : loc) :
  (18 ≤ Age user)%Z →
  cache w !! Email user = Some (Addr l) →
  UserServ_Create user w = (Some errRegistered, w).
Proof.
  intros Hage Hc. unfold UserServ_Create. rewrite decide_False by lia.
  rewrite (GetByEmail_hit _ _ _ Hc). by rewrite decide_True.
Qed.

(** An email that is known is refused without a call of the repository's
    [Create]: from the cache without any repository call at all, and
    otherwise after the one lookup that finds the record, which is then
    cached. *)
Theorem Create_refuses_known_email (user : User) (w : World St) :
  (18 ≤ Age user)%Z →
  (∀ l, cache w !! Email user = Some (Addr l) →
     UserServ_Create user w = (Some errRegistered, w)) ∧
  (∀ u s', cache w !! Email user = None →
     rep_GetByEmail (Email user) (rep w) = (Some u, None, s') →
     ∃ w', UserServ_Create user w = (Some errRegistered, w') ∧
           calls w' = calls w ++ [CallGetByEmail (Email user)] ∧
           rep w' = s' ∧
           ∃ p, cache w' !! Email user = Some p ∧ deref (heap w') p = Some u).
Proof.
  intros Hage. split.
  - intros l Hc. by apply (UserServ_Create_cached user w l).
  - intros u s' Hc Hr. unfold UserServ_Create. rewrite decide_False by lia.
    rewrite (GetByEmail_found _ _ _ _ Hc Hr). rewrite decide_True by done.
    eexists. split; [done|]. simpl. split_and!; [done..|].
    exists (Addr (length (heap w))). split; [apply lookup_insert_eq|].
    apply (deref_alloc (heap w) u).
Qed.

(** When the lookup fails, the service returns the repository's error and
    does not call [Create]; nothing is cached. *)
Theorem Create_lookup_error (user : User) (w : World St) (r : option User) (e : error) (s' : St) :
  (18 ≤ Age user)%Z →
  cache w !! Email user = None →
  rep_GetByEmail (Email user) (rep w) = (r, Some e, s') →
  e ≠ ErrNoRows →
  ∃ w', UserServ_Create user w = (Some e, w') ∧
        calls w' = calls w ++ [CallGetByEmail (Email user)] ∧
        cache w' = cache w.
Proof.
  intros Hage Hc Hr Hne.
  unfold UserServ_Create. rewrite decide_False by lia.
  rewrite (GetByEmail_failed _ _ _ _ _ Hc Hr Hne).
  eexists. split; [done|]. done.
Qed.


(** ** The controller *)

(** A request that is turned away leaves the world untouched and reaches
    the repository not at all: a body that does not decode is answered
    with 400, a user under 18 and an email found in the cache with 500,
    each with the text of the error on a line. *)
Theorem Create_request_turned_away (user : User) (w : World St) :
  (∀ e, UserContr_Create (user, Some e) w
        = (http_Error (Error_text e) StatusBadRequest, w)) ∧
  ((Age user < 18)%Z →
     UserContr_Create (user, None) w
     = (http_Error (Error_text errUnderage) StatusInternalServerError, w)) ∧
  (∀ l, (18 ≤ Age user)%Z → cache w !! Email user = Some (Addr l) →
     UserContr_Create (user, None) w
     = (http_Error (Error_text errRegistered) StatusInternalServerError, w)).
Proof.
  split_and!.
  - done.
  - intros Hage. unfold UserContr_Create. by rewrite UserServ_Create_minor.
  - intros l Hage Hc. unfold UserContr_Create.
    by rewrite (UserServ_Create_cached user w l Hage Hc).
Qed.

(** A request for a new user of age, which the repository accepts, is
    answered with 201 and an empty body; afterwards the proxy finds the
    user by email without a repository call. *)
Theorem Create_request_accepted
    (user : User) (w : World St) (r : option User) (e : err) (s1 s2 : St) :
  (18 ≤ Age user)%Z →
  cache w !! Email user = None →
  rep_GetByEmail (Email user) (rep w) = (r, e, s1) →
  not_found r e →
  rep_Create user s1 = (None, s2) →
  ∃ w' p, UserContr_Create (user, None) w = (mkResponse StatusCreated EmptyString, w') ∧
          CachedUserRep_GetByEmail (Email user) w' = (p, None, w') ∧
          deref (heap w') p = Some user.
Proof.
  intros Hage Hc Hr Hnf Hcr.
  destruct (GetByEmail_not_found _ _ _ _ _ Hc Hr Hnf) as (Hres & Hcache & Hcalls).
  destruct (GetByEmail_miss_calls _ _ Hc) as [_ Hrep]. rewrite Hr in Hrep. simpl in Hrep.
  unfold UserContr_Create, UserServ_Create. rewrite decide_False by lia.
  destruct (CachedUserRep_GetByEmail (Email user) w) as [[p e'] w1].
  simpl in *. simplify_eq. rewrite decide_False by (by intros []).
  destruct (CachedUserRep_Create user w1) as [e1 w2] eqn:Hw2.
  rewrite (Create_ok _ _ _ Hcr) in Hw2. simplify_eq.
  eexists _, (Addr (length (heap w1))). split; [done|]. split.
  - apply GetByEmail_hit. simpl. apply lookup_insert_eq.
  - apply (deref_alloc (heap w1) user).
Qed.

End Service.

(** ** More on the lock discipline *)

Module LockingMore.
Import Locking LockingFacts.

(** The next instruction of a well-shaped thread can proceed whenever the
    lock state matches where the thread stands. *)
Lemma wf_enabled (m : RWMutex) (i : instr) (t : list instr) :
  wf (i :: t) →
  match status_of (i :: t) with
  | Writing => writer m = true → enabled m i = true
  | Reading => 0 < readers m → enabled m i = true
  | Announced => readers m = 0 → enabled m i = true
  | Outside => writer m = false → pending m = false → enabled m i = true
  end.
Proof.
  inversion 1 as [t0 Hw|email user t0 Hw|c t0 Hw Heq|c t0 Hw Heq]; subst.
  - inversion Hw as [|c t0 Hw' Heq]; subst.
    destruct c; simpl in Heq; simplify_eq; simpl; by intros -> ->.
  - simpl. intros ->. done.
  - destruct c; simpl in Heq; simplify_eq; simpl; done.
  - destruct c; simpl in Heq; simplify_eq; simpl; try done.
    intros Hr. by apply bool_decide_eq_true.
    intros Hr. by apply bool_decide_eq_true.
Qed.

Lemma step_enabled (k : nat) (cfg : config) (i : instr) (t : list instr) :
  threads cfg !! k = Some (i :: t) →
  enabled (mutex cfg) i = true →
  ∃ cfg', step k cfg = Some cfg'.
Proof.
  intros Hk Hen. unfold step. rewrite Hk, Hen.
  destruct (exec i (mutex cfg) (users cfg)). eauto.
Qed.

Lemma status_cons (t : list instr) : status_of t ≠ Outside → ∃ i t', t = i :: t'.
Proof. destruct t; [done|eauto]. Qed.

(** As long as a thread has something left to do, some thread can take a
    step. *)
Lemma progress (cfg : config) :
  mutex_inv cfg → Exists (λ t, t ≠ []) (threads cfg) →
  ∃ k cfg', step k cfg = Some cfg'.
Proof.
  intros (Hwf & Hw & Ha & Hr & Hx) Hex.
  assert (∀ s k t, s ≠ Outside → threads cfg !! k = Some t → status_of t = s →
            ∃ i t', t = i :: t' ∧ wf (i :: t') ∧ 0 < count_status s (threads cfg))
    as Hin.
  { intros s k t Hs Hk Hst.
    destruct (status_cons t) as (i & t' & ->); [congruence|].
    exists i, t'. split_and!; [done| |by apply (count_status_lookup s _ k (i :: t'))].
    by apply (Forall_lookup_1 _ _ _ _ Hwf Hk). }
  apply Exists_exists in Hex as (t & Ht & Hne).
  apply list_elem_of_lookup_1 in Ht as [k0 Hk0].
  destruct (decide (0 < count_status Writing (threads cfg))) as [Hcw|Hcw].
  { apply count_status_exists in Hcw as (k & t1 & Hk & Hst).
    destruct (Hin Writing k t1 ltac:(done) Hk Hst) as (i & t' & -> & Hwft & Hc).
    exists k. apply (step_enabled k cfg i t' Hk).
    pose proof (wf_enabled (mutex cfg) i t' Hwft) as Hen. rewrite Hst in Hen.
    apply Hen. rewrite Hw in Hc. destruct (writer (mutex cfg)); [done|simpl in Hc; lia]. }
  destruct (decide (0 < count_status Reading (threads cfg))) as [Hcr|Hcr].
  { apply count_status_exists in Hcr as (k & t1 & Hk & Hst).
    destruct (Hin Reading k t1 ltac:(done) Hk Hst) as (i & t' & -> & Hwft & Hc).
    exists k. apply (step_enabled k cfg i t' Hk).
    pose proof (wf_enabled (mutex cfg) i t' Hwft) as Hen. rewrite Hst in Hen.
    apply Hen. lia. }
  destruct (decide (0 < count_status Announced (threads cfg))) as [Hca|Hca].
  { apply count_status_exists in Hca as (k & t1 & Hk & Hst).
    destruct (Hin Announced k t1 ltac:(done) Hk Hst) as (i & t' & -> & Hwft & Hc).
    exists k. apply (step_enabled k cfg i t' Hk).
    pose proof (wf_enabled (mutex cfg) i t' Hwft) as Hen. rewrite Hst in Hen.
    apply Hen. lia. }
  destruct t as [|i t']; [done|].
  assert (status_of (i :: t') = Outside) as Hst.
  { destruct (status_of (i :: t')) eqn:Hs; [done|..];
      pose proof (count_status_lookup _ _ _ _ Hk0 Hs); lia. }
  exists k0. apply (step_enabled k0 cfg i t' Hk0).
  pose proof (wf_enabled (mutex cfg) i t' (Forall_lookup_1 _ _ _ _ Hwf Hk0)) as Hen.
  rewrite Hst in Hen. unfold b2n in *.
  apply Hen; [destruct (writer (mutex cfg))|destruct (pending (mutex cfg))]; done || lia.
Qed.

Lemma sum_list_insert (f : list instr → nat) (ts : list (list instr)) (k : nat) (t0 t : list instr) :
  ts !! k = Some t0 →
  sum_list (f <$> <[k := t]> ts) + f t0 = sum_list (f <$> ts) + f t.
Proof.
  revert k. induction ts as [|t1 ts IH]; intros [|k] Hk; simplify_eq/=; [lia|].
  specialize (IH k Hk). lia.
Qed.

Lemma step_weight (k : nat) (cfg cfg' : config) :
  step k cfg = Some cfg' → total_weight cfg' + 1 = total_weight cfg.
Proof.
  unfold step, total_weight.
  destruct (threads cfg !! k) as [[|i t]|] eqn:Hk; [done| |done].
  destruct (enabled (mutex cfg) i); [|done].
  destruct (exec i (mutex cfg) (users cfg)) as [m c]. intros [= <-]. simpl.
  pose proof (sum_list_insert weight _ k _ (rest i t) Hk) as Hs.
  assert (weight (rest i t) + 1 = weight (i :: t)) as Hw
    by (destruct i; unfold weight, rest; rewrite !fmap_cons; cbn [sum_list sum_list_with]; unfold id; lia).
  lia.
Qed.

Lemma finished_or_not (ts : list (list instr)) :
  Forall (λ t, t = []) ts ∨ Exists (λ t, t ≠ []) ts.
Proof.
  induction ts as [|[|i t] ts [IH|IH]]; auto;
    right; first [by apply Exists_cons_hd | by apply Exists_cons_tl].
Qed.

(** The lock discipline of the cache cannot deadlock: from every state that
    threads calling [Set], [Get] and [List] can reach, some schedule runs
    all of them to the end. *)
Theorem no_deadlock (c : UserCache) (cs : list (list call)) (sched : list nat) (cfg : config) :
  run sched (start c cs) = Some cfg →
  ∃ sched' cfg', run sched' cfg = Some cfg' ∧ finished cfg'.
Proof.
  intros Hrun.
  pose proof (mutex_inv_run _ _ _ (mutex_inv_start c cs) Hrun) as Hinv.
  clear Hrun. remember (total_weight cfg) as n eqn:Hn.
  revert cfg Hinv Hn. induction n as [n IH] using lt_wf_ind. intros cfg Hinv Hn.
  destruct (finished_or_not (threads cfg)) as [Hfin|Hex].
  - exists [], cfg. done.
  - destruct (progress cfg Hinv Hex) as (k & cfg1 & Hstep).
    pose proof (step_weight k cfg cfg1 Hstep) as Hw.
    destruct (IH (total_weight cfg1) ltac:(lia) cfg1) as (sched' & cfg' & Hrun' & Hfin);
      [by apply (mutex_inv_step k cfg)|done|].
    exists (k :: sched'), cfg'. simpl. by rewrite Hstep.
Qed.










Lemma run_app (s1 s2 : list nat) (cfg : config) :
  run (s1 ++ s2) cfg = run s1 cfg ≫= run s2.
Proof.
  revert cfg. induction s1 as [|k s1 IH]; intros cfg; simpl; [done|].
  destruct (step k cfg); [apply IH|done].
Qed.

(** A thread on its own is never blocked, and its calls do what the
    sequential cache functions do, one after the other: at the end the map
    is the map after each [Set] in turn, and the lock is free. *)
Theorem alone_is_sequential (c : UserCache) (calls : list call) :
  run (replicate (sum_list (steps_of <$> calls)) 0) (start c [calls]) =
  Some (mkConfig (mkRWMutex false false 0) (foldl apply_call c calls) [[]]).
Proof.
  unfold start. simpl. revert c.
  induction calls as [|k calls IH]; intros c; [done|].
  rewrite fmap_cons. cbn [sum_list sum_list_with]. unfold id.
  rewrite replicate_add, run_app.
  destruct k; simpl; apply IH.
Qed.

End LockingMore.

(** ** The further properties at work *)

Lemma Set_Get_roundtrip_witness :
  UserCache_Get "bob@example.com"
    (UserCache_Set "alice@example.com" (Addr 1) {["bob@example.com" := Addr 0]})
  = UserCache_Get "bob@example.com" {["bob@example.com" := Addr 0]}.
Proof.
  apply (Set_Get_roundtrip {["bob@example.com" := Addr 0]}
           "alice@example.com" "bob@example.com" (Addr 1) Nil).
  discriminate.
Defined.

Lemma UserCache_List_any_order_witness :
  ∃ ρ, UserCache_List ρ {["alice@example.com" := Addr 0; "bob@example.com" := Addr 1]}
         [alice; bob] = Some [bob; alice].
Proof.
  apply (UserCache_List_any_order
           {["alice@example.com" := Addr 0; "bob@example.com" := Addr 1]} [alice; bob]).
  - apply map_Forall_insert_2; [simpl; lia|].
    apply map_Forall_singleton. simpl; lia.
  - vm_compute. apply perm_swap || reflexivity.
Defined.

Lemma GetByEmail_error_passthrough_witness :
  ∃ p w', CachedUserRep_GetByEmail "bob@example.com" world_closed = (p, Some errClosed, w') ∧
          deref (heap w') p = Some zero_User ∧
          cache w' = cache world_closed ∧
          rep w' = mkMemDB [alice] true ∧
          calls w' = calls world_closed ++ [CallGetByEmail "bob@example.com"].
Proof.
  apply (GetByEmail_error_passthrough "bob@example.com" world_closed
           (Some zero_User) errClosed (mkMemDB [alice] true));
    [reflexivity|reflexivity|discriminate].
Defined.

Lemma not_found_is_not_cached_witness :
  (UserCache_Get "dave@example.com"
     (cache (CachedUserRep_GetByEmail "dave@example.com" world_two).2)).2 = false ∧
  calls (CachedUserRep_GetByEmail "dave@example.com"
           (CachedUserRep_GetByEmail "dave@example.com" world_two).2).2
    = calls world_two ++ [CallGetByEmail "dave@example.com"; CallGetByEmail "dave@example.com"].
Proof.
  apply (not_found_is_not_cached "dave@example.com" world_two None None
           (mkMemDB [alice; bob] false)); [reflexivity|reflexivity|].
  right. split; reflexivity.
Defined.

Lemma List_after_first_Create_witness :
  CachedUserRep_List PerIteration [3] (CachedUserRep_Create dave world_two).2
  = (Returned (Some [dave], None), (CachedUserRep_Create dave world_two).2).
Proof.
  apply (List_after_first_Create PerIteration [3] dave world_two); reflexivity.
Defined.

Lemma List_never_panics_witness :
  (CachedUserRep_List PerLoop [1]
     (exec_ops [OpList PerLoop []; OpCreate dave; OpGetByEmail "bob@example.com"]
        (NewCachedUserRep [] (mkMemDB [alice; bob] false)))).1 ≠ Panicked.
Proof.
  apply (List_never_panics
           [OpList PerLoop []; OpCreate dave; OpGetByEmail "bob@example.com"]
           [] (mkMemDB [alice; bob] false) PerLoop [1]).
  reflexivity.
Defined.

Lemma at_most_one_repository_call_witness :
  ∃ l, calls (exec_op (OpCacheSet "bob@example.com" Nil) world_two) = calls world_two ++ l ∧
       length l ≤ 1 ∧ l = [].
Proof.
  destruct (at_most_one_repository_call (OpCacheSet "bob@example.com" Nil) world_two)
    as (l & Hl & Hlen & Hnil).
  exists l. split; [exact Hl|]. split; [exact Hlen|]. apply Hnil. reflexivity.
Defined.

Lemma records_are_never_modified_witness :
  deref (heap (exec_ops [OpCreate alicia; OpList PerLoop []; OpGetByEmail "bob@example.com"]
                 (CachedUserRep_Create alice world_empty).2)) (Addr 0) = Some alice.
Proof.
  apply (records_are_never_modified
           [OpCreate alicia; OpList PerLoop []; OpGetByEmail "bob@example.com"]
           (CachedUserRep_Create alice world_empty).2 (Addr 0) alice).
  reflexivity.
Defined.


Lemma List_cold_caches_listed_emails_witness :
  dom (cache (CachedUserRep_List PerIteration [] world_two).2)
  = list_to_set (Email <$> [alice; bob]).
Proof.
  apply (List_cold_caches_listed_emails PerIteration [] world_two
           (Some [alice; bob]) (mkMemDB [alice; bob] false)); reflexivity.
Defined.

Lemma UserRep_List_all_rows_witness :
  UserRep_List (mkMemDB [alice; bob] false)
  = (Some [alice; bob], None, mkMemDB [alice; bob] false).
Proof.
  apply (UserRep_List_all_rows (mkMemDB [alice; bob] false) (mkMemDB [alice; bob] false)
           [(alice, None); (bob, None)]); [reflexivity|].
  repeat constructor.
Defined.

Lemma UserRep_List_first_failure_witness :
  UserRep_List (mkMemDB [alice] true) = (None, Some errClosed, mkMemDB [alice] true).
Proof.
  apply (proj1 (UserRep_List_first_failure (mkMemDB [alice] true) (mkMemDB [alice] true)
                  errClosed) []).
  reflexivity.
Defined.

Lemma GetByEmail_scan_failure_witness :
  ∃ p w', CachedUserRep_GetByEmail "bob@example.com" world_closed = (p, Some errClosed, w') ∧
          p ≠ Nil ∧ deref (heap w') p = Some zero_User ∧ cache w' = cache world_closed.
Proof.
  apply (GetByEmail_scan_failure "bob@example.com" world_closed zero_User errClosed
           (mkMemDB [alice] true)); [reflexivity|reflexivity|discriminate].
Defined.

Lemma Create_refuses_known_email_witness :
  ∃ w', UserServ_Create alicia world_two = (Some errRegistered, w') ∧
        calls w' = calls world_two ++ [CallGetByEmail (Email alicia)] ∧
        rep w' = mkMemDB [alice; bob] false ∧
        ∃ p, cache w' !! Email alicia = Some p ∧ deref (heap w') p = Some alice.
Proof.
  apply (proj2 (Create_refuses_known_email alicia world_two ltac:(discriminate))
           alice (mkMemDB [alice; bob] false)); reflexivity.
Defined.

Lemma Create_lookup_error_witness :
  ∃ w', UserServ_Create dave world_closed = (Some errClosed, w') ∧
        calls w' = calls world_closed ++ [CallGetByEmail (Email dave)] ∧
        cache w' = cache world_closed.
Proof.
  apply (Create_lookup_error dave world_closed (Some zero_User) errClosed
           (mkMemDB [alice] true));
    [discriminate|reflexivity|reflexivity|discriminate].
Defined.


Lemma Create_request_turned_away_witness :
  UserContr_Create (carol, None) world_two
  = (http_Error (Error_text errUnderage) StatusInternalServerError, world_two).
Proof.
  apply (proj1 (proj2 (Create_request_turned_away carol world_two))). reflexivity.
Defined.

Lemma Create_request_accepted_witness :
  ∃ w' p, UserContr_Create (dave, None) world_two
            = (mkResponse StatusCreated EmptyString, w') ∧
          CachedUserRep_GetByEmail (Email dave) w' = (p, None, w') ∧
          deref (heap w') p = Some dave.
Proof.
  apply (Create_request_accepted dave world_two None None
           (mkMemDB [alice; bob] false) (mkMemDB [alice; bob; dave] false));
    [discriminate|reflexivity|reflexivity|right; split; reflexivity|reflexivity].
Defined.

Lemma no_deadlock_witness :
  let cs := [[Locking.CGet "alice@example.com"];
             [Locking.CSet "alice@example.com" (Addr 0)];
             [Locking.CList; Locking.CSet "bob@example.com" (Addr 1)]] in
  ∃ cfg, Locking.run [0; 1] (Locking.start ∅ cs) = Some cfg ∧
    Locking.blocked cfg 1 = true ∧ Locking.blocked cfg 2 = true ∧
    ∃ sched' cfg', Locking.run sched' cfg = Some cfg' ∧ Locking.finished cfg'.
Proof.
  intros cs.
  destruct (Locking.run [0; 1] (Locking.start ∅ cs)) as [cfg|] eqn:Hrun;
    [|vm_compute in Hrun; discriminate].
  exists cfg. split; [reflexivity|].
  pose proof (LockingMore.no_deadlock ∅ cs [0; 1] cfg Hrun) as Hend.
  vm_compute in Hrun. injection Hrun as <-.
  split; [reflexivity|]. split; [reflexivity|]. exact Hend.
Defined.

